(** * Isolation game agent: evaluation, minimax, alpha-beta and the
      iterative-deepening driver of [game_agent.py]

    The development embeds [custom_score], [CustomPlayer.minimax],
    [CustomPlayer.alphabeta] and [CustomPlayer.get_move] as Rocq functions
    and states the properties of the search engine over them.

    Modelling choices.
    - Scores are Python floats that are either an integer-valued float
      ([float(len(a) - len(b))]) or one of [float("-inf")], [float("inf")]:
      the type [Score] below, with the order of the floats.
    - The board class [isolation.Board] is not part of [game_agent.py]; the
      agent only uses its interface, which is the class [BoardOps].
    - [time_left] is a zero-argument callable.  It is modelled by the sequence
      of values it returns: [time_left k] is the value returned by the call
      number [k] (counting from 0) made during one [get_move].  The number of
      calls made so far is threaded through the search as explicit state.
    - [raise Timeout()] is the second constructor of [Outcome]; a search
      either returns a value or raises.
    - [depth] ranges over [nat]: the documented domain of [search_depth] and
      the values of [range(1, ...)]. *)

From Stdlib Require Import String ZArith List Bool Lia Orders OrdersTac.
Import ListNotations.

(** ** Scores *)

Inductive Score : Type :=
| NegInf : Score            (* float("-inf") *)
| Fin (x : Z) : Score       (* a finite, integer-valued float *)
| PosInf : Score.           (* float("inf") *)

(** [a < b] on floats. *)
Definition score_ltb (a b : Score) : bool :=
  match a, b with
  | NegInf, NegInf => false
  | NegInf, _ => true
  | Fin _, NegInf => false
  | Fin x, Fin y => (x <? y)%Z
  | Fin _, PosInf => true
  | PosInf, _ => false
  end.

(** [a <= b] on floats. *)
Definition score_leb (a b : Score) : bool :=
  match a, b with
  | NegInf, _ => true
  | Fin _, NegInf => false
  | Fin x, Fin y => (x <=? y)%Z
  | Fin _, PosInf => true
  | PosInf, PosInf => true
  | PosInf, _ => false
  end.

(** [a == b] on floats. *)
Definition score_eqb (a b : Score) : bool :=
  match a, b with
  | NegInf, NegInf => true
  | Fin x, Fin y => (x =? y)%Z
  | PosInf, PosInf => true
  | _, _ => false
  end.

(** Python's [max(a, b)]: the first argument unless the second is greater. *)
Definition py_max (a b : Score) : Score := if score_ltb a b then b else a.

(** Python's [min(a, b)]: the first argument unless the second is smaller. *)
Definition py_min (a b : Score) : Score := if score_ltb b a then b else a.

(** ** Moves *)

Definition Move : Type := (Z * Z)%type.

(** The tuple [(-1, -1)]. *)
Definition no_move : Move := ((-1)%Z, (-1)%Z).

Definition move_eq_dec (a b : Move) : {a = b} + {a <> b}.
Proof. decide equality; apply Z.eq_dec. Defined.

(** [list(range(lo, hi))] *)
Definition py_range (lo hi : nat) : list nat := seq lo (hi - lo).

(** ** The board interface used by the agent *)

Class BoardOps (Board Player : Type) : Type := {
  width : Board -> nat;
  height : Board -> nat;
  move_count : Board -> nat;
  active_player : Board -> Player;
  inactive_player : Board -> Player;
  get_opponent : Board -> Player -> Player;
  (* [get_legal_moves(player)]; [None] is the call without argument *)
  get_legal_moves : Board -> option Player -> list Move;
  forecast_move : Board -> Move -> Board;
  is_loser : Board -> Player -> bool;
  is_winner : Board -> Player -> bool
}.

(** ** Outcome of a search: a value, or the [Timeout] exception *)

Inductive Outcome (A : Type) : Type :=
| Returned (a : A) (calls : nat)
| Timeout (calls : nat).

Arguments Returned {A} a calls.
Arguments Timeout {A} calls.

(** The number of probe calls made when the computation ended. *)
Definition calls_of {A : Type} (o : Outcome A) : nat :=
  match o with
  | Returned _ calls => calls
  | Timeout calls => calls
  end.

(** A computation that may call the time probe: it receives the number of
    probe calls made so far and gives back the number made when it ends. *)
Definition Search (A : Type) : Type := nat -> Outcome A.

Definition ret {A : Type} (a : A) : Search A := fun t => Returned a t.

Definition bind {A B : Type} (m : Search A) (k : A -> Search B) : Search B :=
  fun t =>
    match m t with
    | Returned a t' => k a t'
    | Timeout t' => Timeout t'
    end.

Notation "x <- m ;; k" := (bind m (fun x => k))
  (at level 61, m at next level, right associativity).
Notation "m ;;; k" := (bind m (fun _ => k))
  (at level 61, right associativity).

(** How one run of the driver loop of [get_move] ended. *)
Inductive Ending : Type :=
| NoLegalMoves   (* [return (-1,-1)] before the [try] block *)
| Exhausted      (* the [for] loop ran out of depths *)
| ForcedWin      (* [break] on a score equal to [float("+inf")] *)
| TimedOut.      (* [except Timeout: pass] *)

(** What [get_move] returns ([chosen]), with the depths at which it invoked
    the search method, in order ([searched]), how the loop ended and the
    number of probe calls made. *)
Record Run : Type := {
  chosen : Move;
  searched : list nat;
  ending : Ending;
  probes : nat
}.

Definition attempt (depth : nat) (r : Run) : Run :=
  {| chosen := chosen r; searched := depth :: searched r;
     ending := ending r; probes := probes r |}.

Section Agent.

Context {Board Player : Type} `{BoardOps Board Player}.

(** *** [custom_score] *)
Definition custom_score (game : Board) (player : Player) : Score :=
  if is_loser game player then NegInf
  else if is_winner game player then PosInf
  else
    let numberOfMyMoves := get_legal_moves game (Some player) in
    let numberOfOpponentMoves :=
      get_legal_moves game (Some (get_opponent game player)) in
    Fin (Z.of_nat (length numberOfMyMoves)
         - Z.of_nat (length numberOfOpponentMoves)).

(** *** [CustomPlayer]: the fields set by [__init__] *)
Record CustomPlayer : Type := {
  search_depth : nat;
  score : Board -> Player -> Score;
  iterative : bool;
  method : string;
  TIMER_THRESHOLD : Z
}.

Variable self : CustomPlayer.
Variable time_left : nat -> Z.

(** [if self.time_left() < self.TIMER_THRESHOLD: raise Timeout()] *)
Definition check_time : Search unit :=
  fun t =>
    if (time_left t <? TIMER_THRESHOLD self)%Z
    then Timeout (S t)
    else Returned tt (S t).

(** The [for move in legal_moves] loop of [minimax]; [recurse move] is the
    recursive call on [game.forecast_move(move)]. *)
Fixpoint minimax_loop (recurse : Move -> Search (Score * Move))
    (maximizing_player : bool) (legal_moves : list Move)
    (highest_score : Score) (next_move : Move) : Search (Score * Move) :=
  match legal_moves with
  | [] => ret (highest_score, next_move)
  | move :: rest =>
      r <- recurse move ;;
      let potentialScore := fst r in
      if maximizing_player then
        if score_ltb highest_score potentialScore
        then minimax_loop recurse maximizing_player rest potentialScore move
        else minimax_loop recurse maximizing_player rest
               highest_score next_move
      else
        if score_ltb potentialScore highest_score
        then minimax_loop recurse maximizing_player rest potentialScore move
        else minimax_loop recurse maximizing_player rest
               highest_score next_move
  end.

(** *** [CustomPlayer.minimax] *)
Fixpoint minimax (game : Board) (depth : nat) (maximizing_player : bool)
    : Search (Score * Move) :=
  check_time ;;;
  match depth with
  | S depth' =>
      let legal_moves := get_legal_moves game None in
      let highest_score := if maximizing_player then NegInf else PosInf in
      let next_move := no_move in
      minimax_loop
        (fun move =>
           minimax (forecast_move game move) depth'
             (negb maximizing_player))
        maximizing_player legal_moves highest_score next_move
  | O =>
      ret (score self game
             (if maximizing_player then active_player game
              else inactive_player game),
           no_move)
  end.

(** The [for move in legal_moves] loop of [alphabeta], with its [break]. *)
Fixpoint alphabeta_loop
    (recurse : Move -> Score -> Score -> Search (Score * Move))
    (maximizing_player : bool) (legal_moves : list Move)
    (highest_score : Score) (next_move : Move) (alpha beta : Score)
    : Search (Score * Move) :=
  match legal_moves with
  | [] => ret (highest_score, next_move)
  | move :: rest =>
      r <- recurse move alpha beta ;;
      let potentialScore := fst r in
      if maximizing_player then
        let '(highest_score, next_move) :=
          if score_ltb highest_score potentialScore
          then (potentialScore, move) else (highest_score, next_move) in
        let alpha := py_max alpha highest_score in
        if score_leb beta alpha then ret (highest_score, next_move)
        else alphabeta_loop recurse maximizing_player rest
               highest_score next_move alpha beta
      else
        let '(highest_score, next_move) :=
          if score_ltb potentialScore highest_score
          then (potentialScore, move) else (highest_score, next_move) in
        let beta := py_min beta highest_score in
        if score_leb beta alpha then ret (highest_score, next_move)
        else alphabeta_loop recurse maximizing_player rest
               highest_score next_move alpha beta
  end.

(** *** [CustomPlayer.alphabeta] *)
Fixpoint alphabeta (game : Board) (depth : nat) (alpha beta : Score)
    (maximizing_player : bool) : Search (Score * Move) :=
  check_time ;;;
  match depth with
  | S depth' =>
      let legal_moves := get_legal_moves game None in
      let highest_score := if maximizing_player then NegInf else PosInf in
      let next_move := no_move in
      alphabeta_loop
        (fun move alpha beta =>
           alphabeta (forecast_move game move) depth' alpha beta
             (negb maximizing_player))
        maximizing_player legal_moves highest_score next_move alpha beta
  | O =>
      ret (score self game
             (if maximizing_player then active_player game
              else inactive_player game),
           no_move)
  end.

(** [self.alphabeta(game,depth) if self.method == 'alphabeta'
     else self.minimax(game,depth)] *)
Definition search (game : Board) (depth : nat) : Search (Score * Move) :=
  if String.eqb (method self) "alphabeta"%string
  then alphabeta game depth NegInf PosInf true
  else minimax game depth true.

(** [list(range(1, game.move_count + game.width * game.height - 1))
     if self.iterative else [self.search_depth]].
    On [nat] the subtraction stops at 0 where Python reaches -1; the range
    is empty in both cases. *)
Definition iteration_candidate (game : Board) : list nat :=
  if iterative self
  then py_range 1 (move_count game + width game * height game - 1)
  else [search_depth self].

(** The [for depth in iteration_candidate] loop inside [try]. *)
Fixpoint deepen (game : Board) (depths : list nat) (next_move : Move)
    (t : nat) : Run :=
  match depths with
  | [] =>
      {| chosen := next_move; searched := [];
         ending := Exhausted; probes := t |}
  | depth :: rest =>
      match search game depth t with
      | Timeout t' =>
          {| chosen := next_move; searched := [depth];
             ending := TimedOut; probes := t' |}
      | Returned (score, move) t' =>
          if score_eqb score PosInf then
            {| chosen := next_move; searched := [depth];
               ending := ForcedWin; probes := t' |}
          else
            attempt depth
              (deepen game rest
                 (if negb (score_eqb score NegInf) then move else next_move)
                 t')
      end
  end.

(** *** [CustomPlayer.get_move], with the record of what it did *)
Definition get_move_run (game : Board) (legal_moves : list Move) : Run :=
  match legal_moves with
  | [] =>
      {| chosen := no_move; searched := [];
         ending := NoLegalMoves; probes := 0 |}
  | first :: _ => deepen game (iteration_candidate game) first 0
  end.

(** *** [CustomPlayer.get_move] *)
Definition get_move (game : Board) (legal_moves : list Move) : Move :=
  chosen (get_move_run game legal_moves).

End Agent.

Arguments CustomPlayer : clear implicits.

(** ** Completed iterations and the move recorded from them *)

(** What [if score != float("-inf"): next_move = move] leaves in
    [next_move] after a search that returned [result]. *)
Definition adopt (next_move : Move) (result : Score * Move) : Move :=
  if negb (score_eqb (fst result) NegInf) then snd result else next_move.

(** The move recorded after the searches that returned [results], in this
    order, starting from [first]: the move of the last of them whose score
    is not [-inf], and [first] when there is none. *)
Definition recorded (results : list (Score * Move)) (first : Move) : Move :=
  fold_left adopt results first.

Section Completed.

Context {Board Player : Type} `{BoardOps Board Player}.
Variable self : CustomPlayer Board Player.
Variable time_left : nat -> Z.
Variable game : Board.

(** [completed depths t results t'].  The searches at [depths], made one
    after the other from [t] probe calls on, all returned, none of them with
    the score [+inf]; [results] are the pairs they returned and [t'] is the
    number of probe calls made at the end. *)
Inductive completed : list nat -> nat -> list (Score * Move) -> nat -> Prop :=
| completed_none (t : nat) : completed [] t [] t
| completed_next (depth : nat) (rest : list nat) (t : nat)
    (score : Score) (move : Move) (t1 : nat)
    (results : list (Score * Move)) (t2 : nat) :
    search self time_left game depth t = Returned (score, move) t1 ->
    score <> PosInf ->
    completed rest t1 results t2 ->
    completed (depth :: rest) t ((score, move) :: results) t2.

End Completed.

(** ** The values computed by the searches when no probe aborts them *)

Section Values.

Context {Board Player : Type} `{BoardOps Board Player}.
Variable self : CustomPlayer Board Player.

(** The loop of [minimax] over the values [value move] of the children. *)
Fixpoint minimax_loop_value (value : Move -> Score)
    (maximizing_player : bool) (legal_moves : list Move)
    (highest_score : Score) (next_move : Move) : Score * Move :=
  match legal_moves with
  | [] => (highest_score, next_move)
  | move :: rest =>
      let potentialScore := value move in
      if maximizing_player then
        if score_ltb highest_score potentialScore
        then minimax_loop_value value maximizing_player rest
               potentialScore move
        else minimax_loop_value value maximizing_player rest
               highest_score next_move
      else
        if score_ltb potentialScore highest_score
        then minimax_loop_value value maximizing_player rest
               potentialScore move
        else minimax_loop_value value maximizing_player rest
               highest_score next_move
  end.

Fixpoint minimax_value (game : Board) (depth : nat)
    (maximizing_player : bool) : Score * Move :=
  match depth with
  | S depth' =>
      minimax_loop_value
        (fun move =>
           fst (minimax_value (forecast_move game move) depth'
                  (negb maximizing_player)))
        maximizing_player (get_legal_moves game None)
        (if maximizing_player then NegInf else PosInf) no_move
  | O =>
      (score self game
         (if maximizing_player then active_player game
          else inactive_player game),
       no_move)
  end.

(** The loop of [alphabeta] over the values [value move alpha beta] of the
    children. *)
Fixpoint alphabeta_loop_value (value : Move -> Score -> Score -> Score)
    (maximizing_player : bool) (legal_moves : list Move)
    (highest_score : Score) (next_move : Move) (alpha beta : Score)
    : Score * Move :=
  match legal_moves with
  | [] => (highest_score, next_move)
  | move :: rest =>
      let potentialScore := value move alpha beta in
      if maximizing_player then
        let '(highest_score, next_move) :=
          if score_ltb highest_score potentialScore
          then (potentialScore, move) else (highest_score, next_move) in
        let alpha := py_max alpha highest_score in
        if score_leb beta alpha then (highest_score, next_move)
        else alphabeta_loop_value value maximizing_player rest
               highest_score next_move alpha beta
      else
        let '(highest_score, next_move) :=
          if score_ltb potentialScore highest_score
          then (potentialScore, move) else (highest_score, next_move) in
        let beta := py_min beta highest_score in
        if score_leb beta alpha then (highest_score, next_move)
        else alphabeta_loop_value value maximizing_player rest
               highest_score next_move alpha beta
  end.

Fixpoint alphabeta_value (game : Board) (depth : nat) (alpha beta : Score)
    (maximizing_player : bool) : Score * Move :=
  match depth with
  | S depth' =>
      alphabeta_loop_value
        (fun move alpha beta =>
           fst (alphabeta_value (forecast_move game move) depth' alpha beta
                  (negb maximizing_player)))
        maximizing_player (get_legal_moves game None)
        (if maximizing_player then NegInf else PosInf) no_move alpha beta
  | O =>
      (score self game
         (if maximizing_player then active_player game
          else inactive_player game),
       no_move)
  end.

(** What a search with window [(alpha, beta)] may return for a node whose
    minimax value is [exact]: the value itself when it lies inside the
    window, and otherwise a value on the same side of the window. *)
Definition within (alpha beta exact found : Score) : Prop :=
  (score_leb exact alpha = true -> score_leb found alpha = true) /\
  (score_leb beta exact = true -> score_leb beta found = true) /\
  (score_ltb alpha exact = true -> score_ltb exact beta = true ->
   found = exact).

End Values.

(** ** A concrete board: explicit game trees

    A position is given with everything the agent can ask of it: the board
    size, the number of moves played, the side to move, the legal moves of the
    side to move each with the position it leads to, and the legal moves the
    other side would have.  The side to move loses when it has no legal
    move. *)

Inductive Side : Type := First | Second.

Definition side_eqb (a b : Side) : bool :=
  match a, b with
  | First, First | Second, Second => true
  | _, _ => false
  end.

Definition other (s : Side) : Side :=
  match s with First => Second | Second => First end.

#[warnings="-register-all"]
Inductive Position : Type :=
| Pos (cols rows played : nat) (to_move : Side)
      (moves : list (Move * Position)) (waiting : list Move).

Definition pos_cols (p : Position) : nat := let 'Pos c _ _ _ _ _ := p in c.
Definition pos_rows (p : Position) : nat := let 'Pos _ r _ _ _ _ := p in r.
Definition pos_played (p : Position) : nat := let 'Pos _ _ n _ _ _ := p in n.
Definition pos_to_move (p : Position) : Side := let 'Pos _ _ _ s _ _ := p in s.
Definition pos_moves (p : Position) : list (Move * Position) :=
  let 'Pos _ _ _ _ ms _ := p in ms.
Definition pos_waiting (p : Position) : list Move :=
  let 'Pos _ _ _ _ _ w := p in w.

Fixpoint lookup_move (m : Move) (ms : list (Move * Position))
    : option Position :=
  match ms with
  | [] => None
  | (m', p) :: rest =>
      if move_eq_dec m m' then Some p else lookup_move m rest
  end.

Definition pos_legal (p : Position) (who : option Side) : list Move :=
  match who with
  | None => map fst (pos_moves p)
  | Some s =>
      if side_eqb s (pos_to_move p) then map fst (pos_moves p)
      else pos_waiting p
  end.

Definition pos_forecast (p : Position) (m : Move) : Position :=
  match lookup_move m (pos_moves p) with
  | Some q => q
  | None => p
  end.

Definition no_moves (p : Position) : bool :=
  match pos_moves p with [] => true | _ => false end.

#[export] Instance PositionBoard : BoardOps Position Side := {
  width := pos_cols;
  height := pos_rows;
  move_count := pos_played;
  active_player := pos_to_move;
  inactive_player := fun p => other (pos_to_move p);
  get_opponent := fun _ s => other s;
  get_legal_moves := pos_legal;
  forecast_move := pos_forecast;
  is_loser := fun p s => side_eqb s (pos_to_move p) && no_moves p;
  is_winner := fun p s => side_eqb s (other (pos_to_move p)) && no_moves p
}.

(** The agent as [CustomPlayer(...)] builds it, with [custom_score]. *)
Definition player_with (depth : nat) (iter : bool) (meth : string)
    (timeout : Z) : CustomPlayer Position Side :=
  {| search_depth := depth; score := custom_score; iterative := iter;
     method := meth; TIMER_THRESHOLD := timeout |}.

(** A probe that always reports the same remaining time. *)
Definition steady (ms : Z) : nat -> Z := fun _ => ms.

(** A probe that reports [ms] for the first [n] calls and 0 afterwards. *)
Definition expiring (n : nat) (ms : Z) : nat -> Z :=
  fun k => if k <? n then ms else 0%Z.

Definition mv (r c : Z) : Move := (r, c).

(** *** A position with an immediate win as second legal move

    3x3 board, L-shaped moves.  The first player started on (0,2) and moved
    to (1,0); the second player started on (0,1) and is to move.  Moving to
    (2,2) leaves the first player without a move; moving to (2,0) does not. *)
Definition win_b : Position := Pos 3 3 4 First [] [].
Definition win_a3 : Position := Pos 3 3 6 First [] [mv 0 0].
Definition win_a2 : Position := Pos 3 3 5 Second [(mv 1 2, win_a3)] [].
Definition win_a : Position := Pos 3 3 4 First [(mv 2 2, win_a2)] [mv 1 2].
Definition win_root : Position :=
  Pos 3 3 3 Second [(mv 2 0, win_a); (mv 2 2, win_b)] [mv 2 2].

(** *** A position lost for the side to move

    3x3 board, L-shaped moves.  The first player started on (1,0) and moved
    to (0,2); the second player started on (0,1) and is to move.  Every line
    ends with the second player unable to move. *)
Definition lost_a4 : Position := Pos 3 3 7 Second [] [].
Definition lost_a3 : Position :=
  Pos 3 3 6 First [(mv 0 0, lost_a4)] [mv 0 0].
Definition lost_a2 : Position :=
  Pos 3 3 5 Second [(mv 1 2, lost_a3)] [mv 0 0].
Definition lost_a : Position := Pos 3 3 4 First [(mv 2 1, lost_a2)] [mv 1 2].
Definition lost_b2 : Position := Pos 3 3 5 Second [] [mv 0 0].
Definition lost_b : Position := Pos 3 3 4 First [(mv 2 1, lost_b2)] [].
Definition lost_root : Position :=
  Pos 3 3 3 Second [(mv 2 0, lost_a); (mv 2 2, lost_b)] [mv 2 1].

Definition root_moves : list Move := [mv 2 0; mv 2 2].

(** *** A position whose better move is the second one

    3x3 board, L-shaped moves.  The first player started on (1,2) and moved
    to (0,0); the second player started on (0,1) and is to move.  After
    (2,0) the second player cannot move again; after (2,2) the game goes on
    for three more moves. *)
Definition side_a2 : Position := Pos 3 3 5 Second [] [mv 0 2].
Definition side_a : Position := Pos 3 3 4 First [(mv 2 1, side_a2)] [].
Definition side_b4 : Position := Pos 3 3 7 Second [] [].
Definition side_b3 : Position :=
  Pos 3 3 6 First [(mv 0 2, side_b4)] [mv 0 2].
Definition side_b2 : Position :=
  Pos 3 3 5 Second [(mv 1 0, side_b3)] [mv 0 2].
Definition side_b : Position := Pos 3 3 4 First [(mv 2 1, side_b2)] [mv 1 0].
Definition side_root : Position :=
  Pos 3 3 3 Second [(mv 2 0, side_a); (mv 2 2, side_b)] [mv 2 1].

(** *** A position with three moves against one

    7x7 board, L-shaped moves.  The first player started on (2,1) and moved
    to (0,2); the second player started on (4,5) and moved to (6,6).  The
    first player is to move and has three moves, the second player would have
    one.  The positions after each move are cut off. *)
Definition cut_off : Position := Pos 7 7 5 Second [] [].
Definition eval_example : Position :=
  Pos 7 7 4 First
    [(mv 1 0, cut_off); (mv 1 4, cut_off); (mv 2 3, cut_off)] [mv 5 4].

(** *** A board too small to search

    A board one cell wide and two cells high before the first move: either
    cell can be taken, and the game is over after the second move. *)
Definition tiny_end : Position := Pos 1 2 2 First [] [].
Definition tiny_a : Position := Pos 1 2 1 Second [(mv 1 0, tiny_end)] [].
Definition tiny_b : Position := Pos 1 2 1 Second [(mv 0 0, tiny_end)] [].
Definition tiny_root : Position :=
  Pos 1 2 0 First [(mv 0 0, tiny_a); (mv 1 0, tiny_b)] [mv 0 0; mv 1 0].

(** ** Reading the probe up to the first low value *)

(** A computation started after [t] probe calls read the probe in order and
    stopped at the first value below the margin: if it returned, every value
    it read was at or above the margin; if it raised [Timeout], the last
    value it read was below the margin and the ones before were not. *)
Definition reads_until_low {A : Type} (threshold : Z) (time_left : nat -> Z)
    (t : nat) (o : Outcome A) : Prop :=
  match o with
  | Returned _ t' =>
      (t <= t')%nat /\
      forall k, (t <= k < t')%nat -> (threshold <= time_left k)%Z
  | Timeout t' =>
      (t < t')%nat /\ (time_left (t' - 1)%nat < threshold)%Z /\
      forall k, (t <= k < t' - 1)%nat -> (threshold <= time_left k)%Z
  end.

(** * Properties *)

(** ** The order on scores *)

Ltac split_comparisons :=
  repeat match goal with
    | H : context [(?a <? ?b)%Z] |- _ => destruct (Z.ltb_spec a b)
    | |- context [(?a <? ?b)%Z] => destruct (Z.ltb_spec a b)
    | H : context [(?a <=? ?b)%Z] |- _ => destruct (Z.leb_spec a b)
    | |- context [(?a <=? ?b)%Z] => destruct (Z.leb_spec a b)
    | H : context [(?a =? ?b)%Z] |- _ => destruct (Z.eqb_spec a b)
    | |- context [(?a =? ?b)%Z] => destruct (Z.eqb_spec a b)
    end.

(** Settle a small statement about scores by cases on the scores. *)
Ltac by_cases_on_scores :=
  intros;
  repeat match goal with s : Score |- _ => destruct s end;
  simpl in *; split_comparisons; simpl in *;
  try discriminate; try tauto; try lia;
  try (f_equal; lia); try (intuition (try discriminate; try congruence; lia)).

Lemma score_eqb_eq (a b : Score) : score_eqb a b = true <-> a = b.
Proof. by_cases_on_scores. Qed.

Lemma score_ltb_irrefl (a : Score) : score_ltb a a = false.
Proof. by_cases_on_scores. Qed.

Lemma score_ltb_PosInf (a : Score) : score_ltb PosInf a = false.
Proof. reflexivity. Qed.

Lemma score_ltb_NegInf (a : Score) : score_ltb a NegInf = false.
Proof. destruct a; reflexivity. Qed.

(** The floats of [Score] are totally ordered by [<]; the module gives the
    [order] tactic for them. *)
Module ScoreOrder <: TotalOrder.
Definition t := Score.
Definition eq := @Logic.eq Score.
Definition eq_equiv : Equivalence eq := eq_equivalence.
Definition lt (a b : Score) : Prop := Is_true (score_ltb a b).
Definition le (a b : Score) : Prop := Is_true (score_leb a b).

Lemma lt_strorder : StrictOrder lt.
Proof.
  split.
  - intros a; unfold complement, lt, Is_true; by_cases_on_scores.
  - intros a b c; unfold lt, Is_true; by_cases_on_scores.
Qed.

Lemma lt_compat : Proper (eq ==> eq ==> iff) lt.
Proof. intros a a' -> b b' ->; reflexivity. Qed.

Lemma le_lteq (a b : Score) : le a b <-> lt a b \/ eq a b.
Proof.
  unfold le, lt, eq, Is_true; destruct a as [|x|], b as [|y|]; simpl;
    try (split; intros Hle; auto; destruct Hle; (contradiction || discriminate)).
  destruct (Z.leb_spec x y), (Z.ltb_spec x y); split; intros Hle; auto;
    try lia.
  - destruct (Z.eq_dec x y) as [->|Hne]; [right; reflexivity|left; lia].
  - destruct Hle as [Hlt|Heq]; [lia|injection Heq; lia].
Qed.

Lemma lt_total (a b : Score) : lt a b \/ eq a b \/ lt b a.
Proof.
  unfold lt, eq, Is_true; destruct a as [|x|], b as [|y|]; simpl; auto.
  destruct (Z.ltb_spec x y), (Z.ltb_spec y x); auto.
  right; left; f_equal; lia.
Qed.
End ScoreOrder.

Module ScoreOrderTac := !MakeOrderTac ScoreOrder ScoreOrder.

Abbreviation slt := ScoreOrder.lt.
Abbreviation sle := ScoreOrder.le.

Lemma score_ltb_spec (a b : Score) : BoolSpec (slt a b) (sle b a) (score_ltb a b).
Proof.
  unfold ScoreOrder.lt, ScoreOrder.le, Is_true.
  destruct (score_ltb a b) eqn:E; constructor; trivial.
  revert E; by_cases_on_scores.
Qed.

Lemma score_leb_spec (a b : Score) : BoolSpec (sle a b) (slt b a) (score_leb a b).
Proof.
  unfold ScoreOrder.lt, ScoreOrder.le, Is_true.
  destruct (score_leb a b) eqn:E; constructor; trivial.
  revert E; by_cases_on_scores.
Qed.

Lemma sle_or_slt (a b : Score) : sle a b \/ slt b a.
Proof. destruct (score_leb_spec a b); auto. Qed.

Lemma slt_or_sle (a b : Score) : slt a b \/ sle b a.
Proof. destruct (score_ltb_spec a b); auto. Qed.

(** Decide a statement about the order of scores: the tests of the code
    become facts, the implications among the hypotheses are tried on both
    sides of their premise, and [order] settles each case. *)
Ltac score_facts :=
  repeat match goal with
    | H : score_ltb ?a ?b = true |- _ =>
        apply Is_true_eq_left in H; change (slt a b) in H
    | H : score_leb ?a ?b = true |- _ =>
        apply Is_true_eq_left in H; change (sle a b) in H
    | H : score_ltb ?a ?b = false |- _ =>
        let F := fresh in
        destruct (score_ltb_spec a b) as [F|F]; [discriminate H|clear H]
    | H : score_leb ?a ?b = false |- _ =>
        let F := fresh in
        destruct (score_leb_spec a b) as [F|F]; [discriminate H|clear H]
    | H : score_ltb ?a ?b = true -> _ |- _ =>
        let F := fresh in
        destruct (slt_or_sle a b) as [F|F];
        [specialize (H (Is_true_eq_true _ F))|clear H]
    | H : score_leb ?a ?b = true -> _ |- _ =>
        let F := fresh in
        destruct (sle_or_slt a b) as [F|F];
        [specialize (H (Is_true_eq_true _ F))|clear H]
    | H : _ /\ _ |- _ => destruct H
    end.

Ltac score_tests :=
  repeat match goal with
    | |- context [if score_ltb ?a ?b then _ else _] =>
        destruct (score_ltb_spec a b)
    | |- context [if score_leb ?a ?b then _ else _] =>
        destruct (score_leb_spec a b)
    end.

Ltac score_goal :=
  match goal with
  | |- score_ltb ?a ?b = true => apply Is_true_eq_true; change (slt a b)
  | |- score_leb ?a ?b = true => apply Is_true_eq_true; change (sle a b)
  | |- @Logic.eq Score ?a ?b => change (ScoreOrder.eq a b)
  | |- _ => idtac
  end.

Ltac score_order :=
  intros; unfold py_max, py_min in *; cbv zeta; score_tests;
  repeat (score_facts;
          match goal with
          | |- _ /\ _ => split
          | |- _ -> _ => intro
          end);
  score_facts; subst; score_goal;
  first [ reflexivity | discriminate | ScoreOrderTac.order
        | exfalso; ScoreOrderTac.order ].

Lemma sle_PosInf (a : Score) : sle a PosInf.
Proof. destruct a; exact I. Qed.

Lemma sle_NegInf (a : Score) : sle NegInf a.
Proof. destruct a; exact I. Qed.

Lemma slt_true (a b : Score) : slt a b -> score_ltb a b = true.
Proof. apply Is_true_eq_true. Qed.

Lemma sle_true (a b : Score) : sle a b -> score_leb a b = true.
Proof. apply Is_true_eq_true. Qed.

Lemma sle_ltb_false (a b : Score) : sle b a -> score_ltb a b = false.
Proof.
  intros Hle. destruct (score_ltb_spec a b); auto. ScoreOrderTac.order.
Qed.

Lemma slt_leb_false (a b : Score) : slt b a -> score_leb a b = false.
Proof.
  intros Hlt. destruct (score_leb_spec a b); auto. ScoreOrderTac.order.
Qed.

Lemma true_slt (a b : Score) : score_ltb a b = true -> slt a b.
Proof. apply Is_true_eq_left. Qed.

Lemma true_sle (a b : Score) : score_leb a b = true -> sle a b.
Proof. apply Is_true_eq_left. Qed.

(** ** Alpha-beta against minimax, on the values *)

(** One iteration of the loop of a maximizing node: either the loop breaks
    with both running values at or above [beta], or the relation between the
    two loops is kept. *)
Lemma max_step (alpha beta M hs a m v : Score) :
  score_ltb alpha beta = true -> score_ltb a beta = true ->
  (score_leb M alpha = true -> score_leb hs alpha = true /\ a = alpha) ->
  (score_ltb alpha M = true -> hs = M /\ a = M) ->
  within a beta m v ->
  let M' := if score_ltb M m then m else M in
  let hs' := if score_ltb hs v then v else hs in
  let a' := py_max a hs' in
  if score_leb beta a'
  then score_leb beta M' = true /\ score_leb beta hs' = true
  else score_ltb a' beta = true /\
       (score_leb M' alpha = true ->
        score_leb hs' alpha = true /\ a' = alpha) /\
       (score_ltb alpha M' = true -> hs' = M' /\ a' = M').
Proof.
  unfold within. intros Hab Ha H1 H2 (W1 & W2 & W3). score_order.
Qed.

(** The same for a minimizing node. *)
Lemma min_step (alpha beta M hs b m v : Score) :
  score_ltb alpha beta = true -> score_ltb alpha b = true ->
  (score_leb beta M = true -> score_leb beta hs = true /\ b = beta) ->
  (score_ltb M beta = true -> hs = M /\ b = M) ->
  within alpha b m v ->
  let M' := if score_ltb m M then m else M in
  let hs' := if score_ltb v hs then v else hs in
  let b' := py_min b hs' in
  if score_leb b' alpha
  then score_leb M' alpha = true /\ score_leb hs' alpha = true
  else score_ltb alpha b' = true /\
       (score_leb beta M' = true ->
        score_leb beta hs' = true /\ b' = beta) /\
       (score_ltb M' beta = true -> hs' = M' /\ b' = M').
Proof.
  unfold within. intros Hab Hb H1 H2 (W1 & W2 & W3). score_order.
Qed.

Lemma within_refl (alpha beta x : Score) : within alpha beta x x.
Proof. unfold within; auto. Qed.

Lemma within_above (alpha beta M' Mfinal hs' : Score) :
  score_ltb alpha beta = true ->
  score_leb beta M' = true -> score_leb beta hs' = true ->
  sle M' Mfinal -> within alpha beta Mfinal hs'.
Proof. unfold within. score_order. Qed.

Lemma within_below (alpha beta M' Mfinal hs' : Score) :
  score_ltb alpha beta = true ->
  score_leb M' alpha = true -> score_leb hs' alpha = true ->
  sle Mfinal M' -> within alpha beta Mfinal hs'.
Proof. unfold within. score_order. Qed.

Lemma within_end_max (alpha beta M hs a : Score) :
  score_ltb alpha beta = true -> score_ltb a beta = true ->
  (score_leb M alpha = true -> score_leb hs alpha = true /\ a = alpha) ->
  (score_ltb alpha M = true -> hs = M /\ a = M) ->
  within alpha beta M hs.
Proof. unfold within. score_order. Qed.

Lemma within_end_min (alpha beta M hs b : Score) :
  score_ltb alpha beta = true -> score_ltb alpha b = true ->
  (score_leb beta M = true -> score_leb beta hs = true /\ b = beta) ->
  (score_ltb M beta = true -> hs = M /\ b = M) ->
  within alpha beta M hs.
Proof. unfold within. score_order. Qed.

Section ValueFacts.

Variable mval : Move -> Score.
Variable aval : Move -> Score -> Score -> Score.
Hypothesis children :
  forall move a b, score_ltb a b = true ->
    within a b (mval move) (aval move a b).

(** The running maximum never decreases, the running minimum never
    increases. *)
Lemma minimax_loop_value_max_ge (moves : list Move) (M : Score) (nm : Move) :
  sle M (fst (minimax_loop_value mval true moves M nm)).
Proof.
  revert M nm; induction moves as [|move rest IH]; intros M nm; simpl.
  - ScoreOrderTac.order.
  - destruct (score_ltb_spec M (mval move)).
    + specialize (IH (mval move) move). ScoreOrderTac.order.
    + apply IH.
Qed.

Lemma minimax_loop_value_min_le (moves : list Move) (M : Score) (nm : Move) :
  sle (fst (minimax_loop_value mval false moves M nm)) M.
Proof.
  revert M nm; induction moves as [|move rest IH]; intros M nm; simpl.
  - ScoreOrderTac.order.
  - destruct (score_ltb_spec (mval move) M).
    + specialize (IH (mval move) move). ScoreOrderTac.order.
    + apply IH.
Qed.

(** Once the running maximum is [PosInf] (the running minimum [NegInf]),
    the rest of the loop of [minimax] changes nothing. *)
Lemma minimax_loop_value_top (moves : list Move) (nm : Move) :
  minimax_loop_value mval true moves PosInf nm = (PosInf, nm).
Proof. induction moves; simpl; auto. Qed.

Lemma minimax_loop_value_bottom (moves : list Move) (nm : Move) :
  minimax_loop_value mval false moves NegInf nm = (NegInf, nm).
Proof.
  induction moves; simpl; auto. now rewrite score_ltb_NegInf.
Qed.

Lemma alphabeta_loop_max (moves : list Move) :
  forall alpha beta M hs a nm nm',
    score_ltb alpha beta = true -> score_ltb a beta = true ->
    (score_leb M alpha = true -> score_leb hs alpha = true /\ a = alpha) ->
    (score_ltb alpha M = true -> hs = M /\ a = M) ->
    within alpha beta
      (fst (minimax_loop_value mval true moves M nm))
      (fst (alphabeta_loop_value aval true moves hs nm' a beta)).
Proof.
  induction moves as [|move rest IH]; intros alpha beta M hs a nm nm'
    Hab Ha H1 H2; simpl.
  - eapply within_end_max; eauto.
  - pose proof (max_step alpha beta M hs a (mval move) (aval move a beta)
                  Hab Ha H1 H2 (children move a beta Ha)) as Step.
    cbv zeta in Step. revert Step.
    destruct (score_ltb M (mval move)), (score_ltb hs (aval move a beta));
      match goal with
      | |- context [score_leb beta ?x] => destruct (score_leb beta x)
      end; simpl; intros Step;
      try (destruct Step as (Hm & Hh);
           apply (within_above _ _ _ _ _ Hab Hm Hh);
           apply minimax_loop_value_max_ge);
      destruct Step as (Ha' & H1' & H2'); apply IH; assumption.
Qed.

Lemma alphabeta_loop_min (moves : list Move) :
  forall alpha beta M hs b nm nm',
    score_ltb alpha beta = true -> score_ltb alpha b = true ->
    (score_leb beta M = true -> score_leb beta hs = true /\ b = beta) ->
    (score_ltb M beta = true -> hs = M /\ b = M) ->
    within alpha beta
      (fst (minimax_loop_value mval false moves M nm))
      (fst (alphabeta_loop_value aval false moves hs nm' alpha b)).
Proof.
  induction moves as [|move rest IH]; intros alpha beta M hs b nm nm'
    Hab Hb H1 H2; simpl.
  - eapply within_end_min; eauto.
  - pose proof (min_step alpha beta M hs b (mval move) (aval move alpha b)
                  Hab Hb H1 H2 (children move alpha b Hb)) as Step.
    cbv zeta in Step. revert Step.
    destruct (score_ltb (mval move) M), (score_ltb (aval move alpha b) hs);
      match goal with
      | |- context [score_leb ?x alpha] => destruct (score_leb x alpha)
      end; simpl; intros Step;
      try (destruct Step as (Hm & Hh);
           apply (within_below _ _ _ _ _ Hab Hm Hh);
           apply minimax_loop_value_min_le);
      destruct Step as (Hb' & H1' & H2'); apply IH; assumption.
Qed.

End ValueFacts.

Section RootFacts.

Variable mval : Move -> Score.
Variable aval : Move -> Score -> Score -> Score.
Hypothesis children :
  forall move a b, score_ltb a b = true ->
    within a b (mval move) (aval move a b).

(** With the window opened at [PosInf], the loop of a maximizing node makes
    the same updates in both searches. *)
Lemma alphabeta_root_max (moves : list Move) :
  forall M nm, score_ltb M PosInf = true ->
    alphabeta_loop_value aval true moves M nm M PosInf
    = minimax_loop_value mval true moves M nm.
Proof.
  induction moves as [|move rest IH]; intros M nm HM;
    cbn [alphabeta_loop_value minimax_loop_value]; auto.
  destruct (children move M PosInf HM) as (W1 & W2 & W3).
  pose proof (sle_PosInf (mval move)) as Tm.
  pose proof (sle_PosInf (aval move M PosInf)) as Tv.
  pose proof (true_slt _ _ HM) as HM'.
  destruct (slt_or_sle M (mval move)) as [Lt|Ge].
  - destruct (slt_or_sle (mval move) PosInf) as [Lt'|Ge'].
    + rewrite (W3 (slt_true _ _ Lt) (slt_true _ _ Lt')).
      rewrite (slt_true _ _ Lt). cbv beta iota zeta. unfold py_max.
      rewrite (slt_true _ _ Lt), (slt_leb_false _ _ Lt').
      apply IH, slt_true, Lt'.
    + pose proof (true_sle _ _ (W2 (sle_true _ _ Ge'))) as Hv.
      assert (Em : mval move = PosInf) by ScoreOrderTac.order.
      assert (Ev : aval move M PosInf = PosInf) by ScoreOrderTac.order.
      rewrite Em, Ev, HM. cbv beta iota zeta. unfold py_max. rewrite HM.
      change (score_leb PosInf PosInf) with true. cbv iota.
      now rewrite minimax_loop_value_top.
  - pose proof (true_sle _ _ (W1 (sle_true _ _ Ge))) as Hv.
    rewrite (sle_ltb_false _ _ Ge), (sle_ltb_false _ _ Hv).
    cbv beta iota zeta. unfold py_max. rewrite score_ltb_irrefl, (slt_leb_false _ _ HM').
    now apply IH.
Qed.

(** With the window opened at [NegInf], the same for a minimizing node. *)
Lemma alphabeta_root_min (moves : list Move) :
  forall M nm, score_ltb NegInf M = true ->
    alphabeta_loop_value aval false moves M nm NegInf M
    = minimax_loop_value mval false moves M nm.
Proof.
  induction moves as [|move rest IH]; intros M nm HM;
    cbn [alphabeta_loop_value minimax_loop_value]; auto.
  destruct (children move NegInf M HM) as (W1 & W2 & W3).
  pose proof (sle_NegInf (mval move)) as Tm.
  pose proof (sle_NegInf (aval move NegInf M)) as Tv.
  pose proof (true_slt _ _ HM) as HM'.
  destruct (slt_or_sle (mval move) M) as [Lt|Ge].
  - destruct (slt_or_sle NegInf (mval move)) as [Lt'|Ge'].
    + rewrite (W3 (slt_true _ _ Lt') (slt_true _ _ Lt)).
      rewrite (slt_true _ _ Lt). cbv beta iota zeta. unfold py_min.
      rewrite (slt_true _ _ Lt), (slt_leb_false _ _ Lt').
      apply IH, slt_true, Lt'.
    + pose proof (true_sle _ _ (W1 (sle_true _ _ Ge'))) as Hv.
      assert (Em : mval move = NegInf) by ScoreOrderTac.order.
      assert (Ev : aval move NegInf M = NegInf) by ScoreOrderTac.order.
      rewrite Em, Ev, HM. cbv beta iota zeta. unfold py_min. rewrite HM.
      change (score_leb NegInf NegInf) with true. cbv iota.
      now rewrite minimax_loop_value_bottom.
  - pose proof (true_sle _ _ (W2 (sle_true _ _ Ge))) as Hv.
    rewrite (sle_ltb_false _ _ Ge), (sle_ltb_false _ _ Hv).
    cbv beta iota zeta. unfold py_min. rewrite score_ltb_irrefl, (slt_leb_false _ _ HM').
    now apply IH.
Qed.

End RootFacts.

Section ValueAgreement.

Context {Board Player : Type} `{BoardOps Board Player}.
Variable self : CustomPlayer Board Player.

(** Alpha-beta with any non-empty window returns a value that stands to
    the minimax value as [within] says. *)
Lemma alphabeta_value_within (depth : nat) :
  forall game maximizing_player alpha beta,
    score_ltb alpha beta = true ->
    within alpha beta
      (fst (minimax_value self game depth maximizing_player))
      (fst (alphabeta_value self game depth alpha beta maximizing_player)).
Proof.
  induction depth as [|depth IH]; intros game mp alpha beta Hab; simpl.
  - apply within_refl.
  - destruct mp.
    + apply alphabeta_loop_max; auto.
      intros Hbad. rewrite score_ltb_NegInf in Hbad. discriminate.
    + apply alphabeta_loop_min; auto.
      intros Hbad. rewrite score_ltb_PosInf in Hbad. discriminate.
Qed.

(** Called with the full window, alpha-beta returns the score and the move
    of minimax. *)
Lemma alphabeta_value_root (game : Board) (depth : nat)
    (maximizing_player : bool) :
  alphabeta_value self game depth NegInf PosInf maximizing_player
  = minimax_value self game depth maximizing_player.
Proof.
  destruct depth as [|depth]; simpl; auto.
  destruct maximizing_player.
  - apply alphabeta_root_max; auto.
    intros move a b Hlt. apply alphabeta_value_within, Hlt.
  - apply alphabeta_root_min; auto.
    intros move a b Hlt. apply alphabeta_value_within, Hlt.
Qed.

End ValueAgreement.

(** ** The searches: the time check, the probe counter, the move returned *)

Section SearchFacts.

Context {Board Player : Type} `{BoardOps Board Player}.
Variable self : CustomPlayer Board Player.
Variable time_left : nat -> Z.

Lemma minimax_eq (game : Board) (depth : nat) (mp : bool) (t : nat) :
  minimax self time_left game depth mp t =
  if (time_left t <? TIMER_THRESHOLD self)%Z then Timeout (S t)
  else
    match depth with
    | S d =>
        minimax_loop
          (fun move =>
             minimax self time_left (forecast_move game move) d (negb mp))
          mp (get_legal_moves game None)
          (if mp then NegInf else PosInf) no_move (S t)
    | O =>
        Returned
          (score self game
             (if mp then active_player game else inactive_player game),
           no_move) (S t)
    end.
Proof.
  destruct depth; simpl; unfold bind, check_time;
    destruct (time_left t <? TIMER_THRESHOLD self)%Z; reflexivity.
Qed.

Lemma alphabeta_eq (game : Board) (depth : nat) (alpha beta : Score)
    (mp : bool) (t : nat) :
  alphabeta self time_left game depth alpha beta mp t =
  if (time_left t <? TIMER_THRESHOLD self)%Z then Timeout (S t)
  else
    match depth with
    | S d =>
        alphabeta_loop
          (fun move alpha beta =>
             alphabeta self time_left (forecast_move game move) d
               alpha beta (negb mp))
          mp (get_legal_moves game None)
          (if mp then NegInf else PosInf) no_move alpha beta (S t)
    | O =>
        Returned
          (score self game
             (if mp then active_player game else inactive_player game),
           no_move) (S t)
    end.
Proof.
  destruct depth; simpl; unfold bind, check_time;
    destruct (time_left t <? TIMER_THRESHOLD self)%Z; reflexivity.
Qed.

(** *** The probe counter only grows *)

Lemma minimax_loop_calls (recurse : Move -> Search (Score * Move)) :
  (forall move t, t < calls_of (recurse move t)) ->
  forall moves mp hs nm t,
    t <= calls_of (minimax_loop recurse mp moves hs nm t).
Proof.
  intros Hrec moves; induction moves as [|move rest IH];
    intros mp hs nm t; simpl.
  - apply le_n.
  - unfold bind. pose proof (Hrec move t) as Hlt.
    destruct (recurse move t) as [r t'|t']; simpl in *; [|lia].
    destruct mp;
      match goal with
      | |- context [if ?c then _ else _] => destruct c
      end;
      match goal with
      | |- _ <= calls_of (minimax_loop _ ?m _ ?h ?n _) =>
          specialize (IH m h n t'); lia
      end.
Qed.

Lemma minimax_loop_timeout_later (recurse : Move -> Search (Score * Move)) :
  (forall move t, t < calls_of (recurse move t)) ->
  forall moves mp hs nm t t',
    minimax_loop recurse mp moves hs nm t = Timeout t' -> t < t'.
Proof.
  intros Hrec moves; induction moves as [|move rest IH];
    intros mp hs nm t t'; simpl.
  - discriminate.
  - unfold bind. pose proof (Hrec move t) as Hlt.
    destruct (recurse move t) as [r t1|t1]; simpl in *.
    + destruct mp;
        match goal with
        | |- context [if ?c then _ else _] => destruct c
        end; intros Hout; apply IH in Hout; lia.
    + intros Hout; injection Hout as <-. exact Hlt.
Qed.

Lemma alphabeta_loop_calls
    (recurse : Move -> Score -> Score -> Search (Score * Move)) :
  (forall move a b t, t < calls_of (recurse move a b t)) ->
  forall moves mp hs nm alpha beta t,
    t <= calls_of (alphabeta_loop recurse mp moves hs nm alpha beta t).
Proof.
  intros Hrec moves; induction moves as [|move rest IH];
    intros mp hs nm alpha beta t; simpl.
  - apply le_n.
  - unfold bind. pose proof (Hrec move alpha beta t) as Hlt.
    destruct (recurse move alpha beta t) as [r t'|t']; simpl in *; [|lia].
    destruct mp;
      match goal with
      | |- context [score_ltb ?x ?y] => destruct (score_ltb x y)
      end;
      match goal with
      | |- context [score_leb ?x ?y] => destruct (score_leb x y)
      end; simpl; try lia;
      match goal with
      | |- _ <= calls_of (alphabeta_loop _ ?m _ ?h ?n ?a ?b _) =>
          specialize (IH m h n a b t'); lia
      end.
Qed.

Lemma alphabeta_loop_timeout_later
    (recurse : Move -> Score -> Score -> Search (Score * Move)) :
  (forall move a b t, t < calls_of (recurse move a b t)) ->
  forall moves mp hs nm alpha beta t t',
    alphabeta_loop recurse mp moves hs nm alpha beta t = Timeout t' ->
    t < t'.
Proof.
  intros Hrec moves; induction moves as [|move rest IH];
    intros mp hs nm alpha beta t t'; simpl.
  - discriminate.
  - unfold bind. pose proof (Hrec move alpha beta t) as Hlt.
    destruct (recurse move alpha beta t) as [r t1|t1]; simpl in *.
    + destruct mp;
        match goal with
        | |- context [score_ltb ?x ?y] => destruct (score_ltb x y)
        end;
        match goal with
        | |- context [score_leb ?x ?y] => destruct (score_leb x y)
        end; simpl; try discriminate;
        intros Hout; apply IH in Hout; lia.
    + intros Hout; injection Hout as <-. exact Hlt.
Qed.

Lemma minimax_calls (depth : nat) :
  forall game mp t, t < calls_of (minimax self time_left game depth mp t).
Proof.
  induction depth as [|d IH]; intros game mp t; rewrite minimax_eq;
    destruct (time_left t <? TIMER_THRESHOLD self)%Z; simpl; try lia.
  match goal with
  | |- _ < calls_of (minimax_loop ?r ?m ?l ?h ?n ?t0) =>
      pose proof (minimax_loop_calls r (fun mv t1 => IH _ _ t1) l m h n t0)
  end.
  lia.
Qed.

Lemma alphabeta_calls (depth : nat) :
  forall game alpha beta mp t,
    t < calls_of (alphabeta self time_left game depth alpha beta mp t).
Proof.
  induction depth as [|d IH]; intros game alpha beta mp t;
    rewrite alphabeta_eq;
    destruct (time_left t <? TIMER_THRESHOLD self)%Z; simpl; try lia.
  match goal with
  | |- _ < calls_of (alphabeta_loop ?r ?m ?l ?h ?n ?a ?b ?t0) =>
      pose proof (alphabeta_loop_calls r
                    (fun mv a1 b1 t1 => IH _ a1 b1 _ t1) l m h n a b t0)
  end.
  lia.
Qed.

End SearchFacts.

Section SearchClaims.

Context {Board Player : Type} `{BoardOps Board Player}.
Variable self : CustomPlayer Board Player.
Variable time_left : nat -> Z.

(** *** With enough time the searches return the values of [Values] *)

Lemma minimax_loop_completes (recurse : Move -> Search (Score * Move))
    (value : Move -> Score) :
  (forall move t, exists r t',
      recurse move t = Returned r t' /\ fst r = value move) ->
  forall moves mp hs nm t, exists t',
    minimax_loop recurse mp moves hs nm t
    = Returned (minimax_loop_value value mp moves hs nm) t'.
Proof.
  intros Hrec moves; induction moves as [|move rest IH];
    intros mp hs nm t; simpl.
  - eexists; reflexivity.
  - unfold bind. destruct (Hrec move t) as (r & t' & -> & <-).
    destruct mp;
      match goal with
      | |- context [score_ltb ?x ?y] => destruct (score_ltb x y)
      end; apply IH.
Qed.

Lemma alphabeta_loop_completes
    (recurse : Move -> Score -> Score -> Search (Score * Move))
    (value : Move -> Score -> Score -> Score) :
  (forall move a b t, exists r t',
      recurse move a b t = Returned r t' /\ fst r = value move a b) ->
  forall moves mp hs nm alpha beta t, exists t',
    alphabeta_loop recurse mp moves hs nm alpha beta t
    = Returned (alphabeta_loop_value value mp moves hs nm alpha beta) t'.
Proof.
  intros Hrec moves; induction moves as [|move rest IH];
    intros mp hs nm alpha beta t; simpl.
  - eexists; reflexivity.
  - unfold bind. destruct (Hrec move alpha beta t) as (r & t' & -> & <-).
    destruct mp;
      match goal with
      | |- context [score_ltb ?x ?y] => destruct (score_ltb x y)
      end;
      match goal with
      | |- context [score_leb ?x ?y] => destruct (score_leb x y)
      end; solve [eexists; reflexivity | apply IH].
Qed.

Section EnoughTime.

Hypothesis enough_time :
  forall k, (TIMER_THRESHOLD self <= time_left k)%Z.

Lemma probe_passes (t : nat) :
  (time_left t <? TIMER_THRESHOLD self)%Z = false.
Proof. apply Z.ltb_ge, enough_time. Qed.

Lemma minimax_completes (depth : nat) :
  forall game mp t, exists t',
    minimax self time_left game depth mp t
    = Returned (minimax_value self game depth mp) t'.
Proof.
  induction depth as [|d IH]; intros game mp t;
    rewrite minimax_eq, probe_passes; simpl.
  - eexists; reflexivity.
  - apply minimax_loop_completes. intros move t1.
    destruct (IH (forecast_move game move) (negb mp) t1) as (t' & E).
    eauto.
Qed.

Lemma alphabeta_completes (depth : nat) :
  forall game alpha beta mp t, exists t',
    alphabeta self time_left game depth alpha beta mp t
    = Returned (alphabeta_value self game depth alpha beta mp) t'.
Proof.
  induction depth as [|d IH]; intros game alpha beta mp t;
    rewrite alphabeta_eq, probe_passes; simpl.
  - eexists; reflexivity.
  - apply (alphabeta_loop_completes _
             (fun move a b =>
                fst (alphabeta_value self (forecast_move game move) d
                       a b (negb mp)))).
    intros move a b t1.
    destruct (IH (forecast_move game move) a b (negb mp) t1) as (t' & E).
    eauto.
Qed.

End EnoughTime.

(** C2.  When the time probe never reports less than the margin,
    [alphabeta] called with [alpha = -inf] and [beta = +inf] and [minimax]
    both return, on the same position, depth and [maximizing_player], and
    they return the same pair: the same score and the same move.  The moves
    agree in every case, so in particular when no two moves are tied. *)
Theorem alphabeta_agrees_with_minimax (game : Board) (depth : nat)
    (maximizing_player : bool) (t : nat) :
  (forall k, (TIMER_THRESHOLD self <= time_left k)%Z) ->
  exists (result : Score * Move) (t1 t2 : nat),
    minimax self time_left game depth maximizing_player t
    = Returned result t1 /\
    alphabeta self time_left game depth NegInf PosInf maximizing_player t
    = Returned result t2.
Proof.
  intros Htime.
  destruct (minimax_completes Htime depth game maximizing_player t)
    as (t1 & E1).
  destruct (alphabeta_completes Htime depth game NegInf PosInf
              maximizing_player t) as (t2 & E2).
  exists (minimax_value self game depth maximizing_player), t1, t2.
  split; [exact E1|]. rewrite E2. now rewrite alphabeta_value_root.
Qed.

(** C5, as the code has it.  Every call of [minimax] and of [alphabeta]
    reads the time probe first: it raises [Timeout] on that first reading
    exactly when the value read is strictly below the margin, and whatever
    the outcome at least one reading has been made.  A value equal to the
    margin does not abort. *)
Theorem time_check_is_strict (game : Board) (depth : nat)
    (alpha beta : Score) (maximizing_player : bool) (t : nat) :
  (minimax self time_left game depth maximizing_player t = Timeout (S t)
   <-> (time_left t < TIMER_THRESHOLD self)%Z) /\
  (alphabeta self time_left game depth alpha beta maximizing_player t
   = Timeout (S t)
   <-> (time_left t < TIMER_THRESHOLD self)%Z) /\
  t < calls_of (minimax self time_left game depth maximizing_player t) /\
  t < calls_of
        (alphabeta self time_left game depth alpha beta maximizing_player t).
Proof.
  repeat split; try apply minimax_calls; try apply alphabeta_calls.
  - rewrite minimax_eq.
    destruct (Z.ltb_spec (time_left t) (TIMER_THRESHOLD self)); auto.
    destruct depth as [|d]; [discriminate|].
    intros Hout. apply minimax_loop_timeout_later in Hout; [lia|].
    intros move t1. apply minimax_calls.
  - intros Hlt. rewrite minimax_eq.
    apply Z.ltb_lt in Hlt. now rewrite Hlt.
  - rewrite alphabeta_eq.
    destruct (Z.ltb_spec (time_left t) (TIMER_THRESHOLD self)); auto.
    destruct depth as [|d]; [discriminate|].
    intros Hout. apply alphabeta_loop_timeout_later in Hout; [lia|].
    intros move a b t1. apply alphabeta_calls.
  - intros Hlt. rewrite alphabeta_eq.
    apply Z.ltb_lt in Hlt. now rewrite Hlt.
Qed.

(** C4, as the code has it.  On a position whose side to move has no legal
    move, [minimax] and [alphabeta] called with a depth of at least 1 (and
    not stopped by their time check) return the value set before the loop,
    unchanged, with the move [(-1, -1)]: [-inf] on a maximizing level,
    [+inf] on a minimizing level.  The score function is not called. *)
Theorem no_moves_returns_seed (game : Board) (depth : nat)
    (alpha beta : Score) (maximizing_player : bool) (t : nat) :
  get_legal_moves game None = [] ->
  (TIMER_THRESHOLD self <= time_left t)%Z ->
  minimax self time_left game (S depth) maximizing_player t
  = Returned (if maximizing_player then NegInf else PosInf, no_move) (S t)
  /\
  alphabeta self time_left game (S depth) alpha beta maximizing_player t
  = Returned (if maximizing_player then NegInf else PosInf, no_move) (S t).
Proof.
  intros Hnone Htime. apply Z.ltb_ge in Htime.
  rewrite minimax_eq, alphabeta_eq, Htime, Hnone. split; reflexivity.
Qed.

(** *** The move a search returns *)

Lemma minimax_loop_move (recurse : Move -> Search (Score * Move)) :
  forall moves mp hs nm t r t',
    minimax_loop recurse mp moves hs nm t = Returned r t' ->
    snd r = nm \/ In (snd r) moves.
Proof.
  induction moves as [|move rest IH]; intros mp hs nm t r t'; simpl.
  - intros E; injection E as <- _; auto.
  - unfold bind. destruct (recurse move t) as [r1 t1|t1]; [|discriminate].
    destruct mp;
      match goal with
      | |- context [score_ltb ?x ?y] => destruct (score_ltb x y)
      end; intros E; apply IH in E; intuition.
Qed.

Lemma alphabeta_loop_move
    (recurse : Move -> Score -> Score -> Search (Score * Move)) :
  forall moves mp hs nm alpha beta t r t',
    alphabeta_loop recurse mp moves hs nm alpha beta t = Returned r t' ->
    snd r = nm \/ In (snd r) moves.
Proof.
  induction moves as [|move rest IH];
    intros mp hs nm alpha beta t r t'; simpl.
  - intros E; injection E as <- _; auto.
  - unfold bind.
    destruct (recurse move alpha beta t) as [r1 t1|t1]; [|discriminate].
    destruct mp;
      match goal with
      | |- context [score_ltb ?x ?y] => destruct (score_ltb x y)
      end;
      match goal with
      | |- context [score_leb ?x ?y] => destruct (score_leb x y)
      end; simpl; intros E;
      solve [ injection E as <- _; simpl; auto
            | apply IH in E; intuition ].
Qed.

Lemma minimax_move (game : Board) (depth : nat) (mp : bool) (t : nat)
    (r : Score * Move) (t' : nat) :
  minimax self time_left game depth mp t = Returned r t' ->
  snd r = no_move \/ In (snd r) (get_legal_moves game None).
Proof.
  rewrite minimax_eq.
  destruct (time_left t <? TIMER_THRESHOLD self)%Z; [discriminate|].
  destruct depth as [|d].
  - intros E; injection E as <- _; auto.
  - apply minimax_loop_move.
Qed.

Lemma alphabeta_move (game : Board) (depth : nat) (alpha beta : Score)
    (mp : bool) (t : nat) (r : Score * Move) (t' : nat) :
  alphabeta self time_left game depth alpha beta mp t = Returned r t' ->
  snd r = no_move \/ In (snd r) (get_legal_moves game None).
Proof.
  rewrite alphabeta_eq.
  destruct (time_left t <? TIMER_THRESHOLD self)%Z; [discriminate|].
  destruct depth as [|d].
  - intros E; injection E as <- _; auto.
  - apply alphabeta_loop_move.
Qed.

Lemma search_move (game : Board) (depth t : nat) (r : Score * Move)
    (t' : nat) :
  search self time_left game depth t = Returned r t' ->
  snd r = no_move \/ In (snd r) (get_legal_moves game None).
Proof.
  unfold search. destruct (String.eqb _ _).
  - apply alphabeta_move.
  - apply minimax_move.
Qed.

End SearchClaims.

(** ** The evaluation function *)

Section Evaluation.

Context {Board Player : Type} `{BoardOps Board Player}.

(** C8.  [custom_score] returns [-inf] when the player is a loser of the
    position; [+inf] when the player is a winner (and, as then holds, not a
    loser); and otherwise the number of legal moves of the player minus the
    number of legal moves of the opponent, e.g. 2 for 3 moves against 1. *)
Theorem custom_score_cases (game : Board) (player : Player) :
  (is_loser game player = true -> custom_score game player = NegInf) /\
  (is_loser game player = false -> is_winner game player = true ->
   custom_score game player = PosInf) /\
  (is_loser game player = false -> is_winner game player = false ->
   forall own opp : nat,
     length (get_legal_moves game (Some player)) = own ->
     length (get_legal_moves game (Some (get_opponent game player))) = opp ->
     custom_score game player = Fin (Z.of_nat own - Z.of_nat opp)) /\
  (is_loser game player = false -> is_winner game player = false ->
   length (get_legal_moves game (Some player)) = 3 ->
   length (get_legal_moves game (Some (get_opponent game player))) = 1 ->
   custom_score game player = Fin 2).
Proof.
  unfold custom_score. repeat split.
  - intros ->. reflexivity.
  - intros -> ->. reflexivity.
  - intros -> -> own opp <- <-. reflexivity.
  - intros -> -> -> ->. reflexivity.
Qed.

End Evaluation.

(** ** The driver *)


Section Driver.

Context {Board Player : Type} `{BoardOps Board Player}.
Variable self : CustomPlayer Board Player.
Variable time_left : nat -> Z.

Lemma deepen_cons (game : Board) (depth : nat) (rest : list nat)
    (next_move : Move) (t : nat) :
  deepen self time_left game (depth :: rest) next_move t =
  match search self time_left game depth t with
  | Timeout t' =>
      {| chosen := next_move; searched := [depth];
         ending := TimedOut; probes := t' |}
  | Returned (score, move) t' =>
      if score_eqb score PosInf then
        {| chosen := next_move; searched := [depth];
           ending := ForcedWin; probes := t' |}
      else
        attempt depth
          (deepen self time_left game rest
             (if negb (score_eqb score NegInf) then move else next_move)
             t')
  end.
Proof. reflexivity. Qed.


(** Running the loop over [pre ++ post] when it runs to the end of [pre]:
    the loop over [post] continues from the move and the probe count
    reached. *)
Lemma deepen_app (game : Board) (pre post : list nat) :
  forall next_move t,
    ending (deepen self time_left game pre next_move t) = Exhausted ->
    let r := deepen self time_left game pre next_move t in
    let r' := deepen self time_left game post (chosen r) (probes r) in
    deepen self time_left game (pre ++ post) next_move t
    = {| chosen := chosen r'; searched := searched r ++ searched r';
         ending := ending r'; probes := probes r' |}.
Proof.
  induction pre as [|depth rest IH]; intros nm t; cbv zeta.
  - intros _. simpl. now destruct (deepen self time_left game post nm t).
  - rewrite <- app_comm_cons, !deepen_cons.
    destruct (search self time_left game depth t) as [[sc mv] t'|t'];
      [|discriminate].
    destruct (score_eqb sc PosInf); [discriminate|].
    simpl. intros E. specialize (IH _ _ E). cbv zeta in IH.
    rewrite IH. reflexivity.
Qed.

(** The move chosen is the one the loop started with, [(-1, -1)], or a
    legal move of the side to move. *)
Lemma deepen_chosen (game : Board) (depths : list nat) :
  forall next_move t,
    let m := chosen (deepen self time_left game depths next_move t) in
    m = next_move \/ m = no_move \/ In m (get_legal_moves game None).
Proof.
  induction depths as [|depth rest IH]; intros nm t; cbv zeta.
  - simpl; auto.
  - rewrite deepen_cons.
    destruct (search self time_left game depth t) as [[sc mv] t'|t'] eqn:E;
      [|simpl; auto].
    destruct (score_eqb sc PosInf); [simpl; auto|].
    simpl. specialize (IH (if negb (score_eqb sc NegInf) then mv else nm) t').
    cbv zeta in IH. apply search_move in E. simpl in E.
    destruct (negb (score_eqb sc NegInf)); intuition congruence.
Qed.


(** C6, as the code has it.  Without iterative deepening and with at least
    one legal move, [get_move] calls the search method once, at
    [search_depth].  When that search returns a score other than [+inf] and
    [-inf], [get_move] returns the move of that search; when it returns
    [-inf], [get_move] returns the first legal move. *)
Theorem fixed_depth_search (game : Board) (first : Move)
    (more : list Move) :
  iterative self = false ->
  searched (get_move_run self time_left game (first :: more))
  = [search_depth self] /\
  forall sc mv t',
    search self time_left game (search_depth self) 0
    = Returned (sc, mv) t' ->
    (sc <> PosInf -> sc <> NegInf ->
     get_move self time_left game (first :: more) = mv) /\
    (sc = NegInf -> get_move self time_left game (first :: more) = first).
Proof.
  intros Hiter. unfold get_move, get_move_run, iteration_candidate.
  rewrite Hiter, deepen_cons.
  destruct (search self time_left game (search_depth self) 0)
    as [[sc mv] t'|t'] eqn:E.
  - destruct (score_eqb sc PosInf) eqn:Ep.
    + split; [reflexivity|]. intros sc' mv' t'' E'.
      injection E' as <- <- <-. apply score_eqb_eq in Ep. subst sc.
      split; [congruence|discriminate].
    + split; [reflexivity|]. intros sc' mv' t'' E'.
      injection E' as <- <- <-. simpl. split.
      * intros _ Hn. destruct (score_eqb sc NegInf) eqn:En; auto.
        apply score_eqb_eq in En. contradiction.
      * intros ->. reflexivity.
  - split; [reflexivity|]. discriminate.
Qed.

Lemma recorded_last_kept (results : list (Score * Move)) (first : Move)
    (score : Score) (move : Move) :
  score <> NegInf -> recorded (results ++ [(score, move)]) first = move.
Proof.
  intros Hs. unfold recorded. rewrite fold_left_app. simpl. unfold adopt.
  simpl. destruct (score_eqb score NegInf) eqn:E; auto.
  apply score_eqb_eq in E. contradiction.
Qed.

Lemma recorded_last_skipped (results : list (Score * Move)) (first : Move)
    (move : Move) :
  recorded (results ++ [(NegInf, move)]) first = recorded results first.
Proof. unfold recorded. rewrite fold_left_app. reflexivity. Qed.

(** The loop run over depths whose searches all complete ends with the
    move recorded from their results. *)
Lemma deepen_completed (game : Board) (depths : list nat) (t : nat)
    (results : list (Score * Move)) (t' : nat) :
  completed self time_left game depths t results t' ->
  forall next_move,
    deepen self time_left game depths next_move t
    = {| chosen := recorded results next_move; searched := depths;
         ending := Exhausted; probes := t' |}.
Proof.
  induction 1 as [t|depth rest t sc mv t1 results t2 Hs Hw Hc IH];
    intros nm.
  - reflexivity.
  - rewrite deepen_cons, Hs.
    destruct (score_eqb sc PosInf) eqn:E.
    + apply score_eqb_eq in E. contradiction.
    + rewrite IH. reflexivity.
Qed.

(** C7.  When the searches at the depths before some depth have completed
    and the search at that depth raises [Timeout], [get_move] catches it
    and returns normally; the aborted search contributes nothing.  What
    [get_move] returns is the move recorded from the completed searches:
    the move returned by the last of them whose score is not [-inf].  So it
    is the move of the last completed search when that one returned a
    finite score, the move recorded before it when that one returned
    [-inf], and the first legal move when no search was completed. *)
Theorem timeout_keeps_recorded_move (game : Board) (first : Move)
    (more : list Move) (pre : list nat) (depth : nat) (post : list nat)
    (results : list (Score * Move)) (t1 n : nat) :
  iteration_candidate self game = pre ++ depth :: post ->
  completed self time_left game pre 0 results t1 ->
  search self time_left game depth t1 = Timeout n ->
  get_move_run self time_left game (first :: more)
  = {| chosen := recorded results first; searched := pre ++ [depth];
       ending := TimedOut; probes := n |} /\
  (forall earlier x move,
     results = earlier ++ [(Fin x, move)] ->
     get_move self time_left game (first :: more) = move) /\
  (forall earlier move,
     results = earlier ++ [(NegInf, move)] ->
     get_move self time_left game (first :: more)
     = recorded earlier first) /\
  (results = [] -> get_move self time_left game (first :: more) = first).
Proof.
  intros Hcand Hpre Hout.
  pose proof (deepen_completed game pre 0 results t1 Hpre first) as Hrun.
  assert (Hend : ending (deepen self time_left game pre first 0) = Exhausted)
    by (rewrite Hrun; reflexivity).
  assert (E : get_move_run self time_left game (first :: more)
              = {| chosen := recorded results first;
                   searched := pre ++ [depth];
                   ending := TimedOut; probes := n |}).
  { unfold get_move_run. rewrite Hcand.
    rewrite (deepen_app game pre (depth :: post) first 0 Hend).
    rewrite deepen_cons, Hrun. cbn [chosen probes searched ending].
    rewrite Hout. reflexivity. }
  unfold get_move. rewrite E. simpl. split; [reflexivity|]. split; [|split].
  - intros earlier x move ->. apply recorded_last_kept. discriminate.
  - intros earlier move ->. apply recorded_last_skipped.
  - intros ->. reflexivity.
Qed.

(** C9, as the code has it.  When every legal move of the side to move
    (the list [game.get_legal_moves()]) is in the list [legal_moves] given
    to [get_move], the move returned is in that list or is [(-1, -1)].
    With an empty list [get_move] returns [(-1, -1)] at once: no search is
    made and the time probe is not read. *)
Theorem get_move_in_legal_moves (game : Board) (legal_moves : list Move) :
  incl (get_legal_moves game None) legal_moves ->
  (In (get_move self time_left game legal_moves) legal_moves \/
   get_move self time_left game legal_moves = no_move) /\
  get_move_run self time_left game []
  = {| chosen := no_move; searched := [];
       ending := NoLegalMoves; probes := 0 |}.
Proof.
  intros Hincl. split; [|reflexivity].
  unfold get_move, get_move_run.
  destruct legal_moves as [|first more]; [right; reflexivity|].
  pose proof (deepen_chosen game (iteration_candidate self game) first 0)
    as Hc. cbv zeta in Hc.
  destruct Hc as [-> | [-> | Hin]]; auto.
  left; simpl; auto.
Qed.

End Driver.

(** ** The properties above on the example positions *)

(** C1, on the code.  On [win_root] the search at depth 1 returns the score
    [+inf] with the move (2,2); [get_move] stops there, after this one
    search, and returns (2,0), the first legal move, not the move of that
    search. *)
Theorem forced_win_move_not_returned :
  let agent := player_with 3 true "minimax" 10 in
  get_legal_moves win_root None = root_moves /\
  search agent (steady 100) win_root 1 0 = Returned (PosInf, mv 2 2) 3 /\
  get_move_run agent (steady 100) win_root root_moves
  = {| chosen := mv 2 0; searched := [1];
       ending := ForcedWin; probes := 3 |} /\
  get_move agent (steady 100) win_root root_moves <> mv 2 2.
Proof. cbv zeta. repeat split. vm_compute. discriminate. Qed.

Lemma alphabeta_agrees_with_minimax_witness :
  exists (result : Score * Move) (t1 t2 : nat),
    minimax (player_with 3 true "alphabeta" 10) (steady 100)
      lost_root 3 true 0 = Returned result t1 /\
    alphabeta (player_with 3 true "alphabeta" 10) (steady 100)
      lost_root 3 NegInf PosInf true 0 = Returned result t2.
Proof.
  apply (alphabeta_agrees_with_minimax
           (player_with 3 true "alphabeta" 10) (steady 100) lost_root 3 true 0).
  intros k. unfold steady. simpl. lia.
Defined.



Lemma no_moves_returns_seed_counterexample :
  get_legal_moves win_b None = [] /\
  minimax (player_with 3 true "minimax" 10) (steady 100) win_b 1 false 0
  = Returned (PosInf, no_move) 1 /\
  alphabeta (player_with 3 true "minimax" 10) (steady 100) win_b 1
    NegInf PosInf false 0
  = Returned (PosInf, no_move) 1.
Proof. repeat split. Qed.

Lemma no_moves_returns_seed_witness :
  minimax (player_with 3 true "minimax" 10) (steady 100) win_b 1 false 0
  = Returned (PosInf, no_move) 1 /\
  alphabeta (player_with 3 true "minimax" 10) (steady 100) win_b 1
    NegInf PosInf false 0
  = Returned (PosInf, no_move) 1.
Proof.
  apply (no_moves_returns_seed (player_with 3 true "minimax" 10) (steady 100)
           win_b 0 NegInf PosInf false 0).
  - reflexivity.
  - unfold steady. simpl. lia.
Defined.

Lemma time_check_is_strict_counterexample :
  steady 10 0 = TIMER_THRESHOLD (player_with 3 true "minimax" 10) /\
  minimax (player_with 3 true "minimax" 10) (steady 10) lost_root 0 true 0
  = Returned (Fin 1, no_move) 1 /\
  alphabeta (player_with 3 true "minimax" 10) (steady 10) lost_root 0
    NegInf PosInf true 0
  = Returned (Fin 1, no_move) 1.
Proof. repeat split. Qed.

Lemma fixed_depth_search_counterexample :
  let agent := player_with 4 false "minimax" 10 in
  iterative agent = false /\
  search agent (steady 100) lost_root (search_depth agent) 0
  = Returned (NegInf, no_move) 7 /\
  get_move agent (steady 100) lost_root root_moves = mv 2 0 /\
  get_move agent (steady 100) lost_root root_moves <> no_move.
Proof. cbv zeta. repeat split. vm_compute. discriminate. Qed.

Lemma fixed_depth_search_witness :
  searched (get_move_run (player_with 2 false "minimax" 10) (steady 100)
              lost_root (mv 2 0 :: [mv 2 2]))
  = [search_depth (player_with 2 false "minimax" 10)] /\
  forall sc mv' t',
    search (player_with 2 false "minimax" 10) (steady 100) lost_root
      (search_depth (player_with 2 false "minimax" 10)) 0
    = Returned (sc, mv') t' ->
    (sc <> PosInf -> sc <> NegInf ->
     get_move (player_with 2 false "minimax" 10) (steady 100) lost_root
       (mv 2 0 :: [mv 2 2]) = mv') /\
    (sc = NegInf ->
     get_move (player_with 2 false "minimax" 10) (steady 100) lost_root
       (mv 2 0 :: [mv 2 2]) = mv 2 0).
Proof.
  apply (fixed_depth_search (player_with 2 false "minimax" 10) (steady 100)
           lost_root (mv 2 0) [mv 2 2]).
  reflexivity.
Defined.

Lemma timeout_keeps_recorded_move_witness :
  let agent := player_with 3 true "alphabeta" 10 in
  let time_left := expiring 8 100 in
  let results := [(Fin 0, mv 2 2); (Fin 0, mv 2 2)] in
  get_move_run agent time_left side_root (mv 2 0 :: [mv 2 2])
  = {| chosen := recorded results (mv 2 0); searched := [1; 2] ++ [3];
       ending := TimedOut; probes := 9 |} /\
  (forall earlier x move,
     results = earlier ++ [(Fin x, move)] ->
     get_move agent time_left side_root (mv 2 0 :: [mv 2 2]) = move) /\
  (forall earlier move,
     results = earlier ++ [(NegInf, move)] ->
     get_move agent time_left side_root (mv 2 0 :: [mv 2 2])
     = recorded earlier (mv 2 0)) /\
  (results = [] ->
   get_move agent time_left side_root (mv 2 0 :: [mv 2 2]) = mv 2 0).
Proof.
  cbv zeta.
  apply (timeout_keeps_recorded_move (player_with 3 true "alphabeta" 10)
           (expiring 8 100) side_root (mv 2 0) [mv 2 2] [1; 2] 3
           [4; 5; 6; 7; 8; 9; 10] [(Fin 0, mv 2 2); (Fin 0, mv 2 2)] 8 9).
  - reflexivity.
  - apply (completed_next _ _ _ 1 [2] 0 (Fin 0) (mv 2 2) 3);
      [vm_compute; reflexivity|discriminate|].
    apply (completed_next _ _ _ 2 [] 3 (Fin 0) (mv 2 2) 8);
      [vm_compute; reflexivity|discriminate|].
    apply completed_none.
  - vm_compute. reflexivity.
Defined.

Lemma custom_score_cases_witness :
  custom_score lost_a4 Second = NegInf /\
  custom_score win_b Second = PosInf /\
  custom_score eval_example First = Fin (Z.of_nat 3 - Z.of_nat 1) /\
  custom_score eval_example First = Fin 2.
Proof.
  split; [|split; [|split]].
  - apply (proj1 (custom_score_cases lost_a4 Second)). reflexivity.
  - apply (proj1 (proj2 (custom_score_cases win_b Second))); reflexivity.
  - apply (proj1 (proj2 (proj2 (custom_score_cases eval_example First))));
      reflexivity.
  - apply (proj2 (proj2 (proj2 (custom_score_cases eval_example First))));
      reflexivity.
Defined.

Lemma get_move_in_legal_moves_counterexample :
  let m := get_move (player_with 2 false "alphabeta" 10) (steady 100)
             lost_root [mv 2 2] in
  m = mv 2 0 /\ ~ (In m [mv 2 2] \/ m = no_move).
Proof.
  cbv zeta. split; [reflexivity|].
  vm_compute. intros [[E|[]]|E]; discriminate.
Qed.

Lemma get_move_in_legal_moves_witness :
  (In (get_move (player_with 3 true "alphabeta" 10) (steady 100)
         lost_root root_moves) root_moves \/
   get_move (player_with 3 true "alphabeta" 10) (steady 100)
     lost_root root_moves = no_move) /\
  get_move_run (player_with 3 true "alphabeta" 10) (steady 100) lost_root []
  = {| chosen := no_move; searched := [];
       ending := NoLegalMoves; probes := 0 |}.
Proof.
  apply (get_move_in_legal_moves (player_with 3 true "alphabeta" 10)
           (steady 100) lost_root root_moves).
  intros m Hm. exact Hm.
Defined.

(** ** Further properties of the searches *)

Section ProbeReadings.

Context {Board Player : Type} `{BoardOps Board Player}.
Variable self : CustomPlayer Board Player.
Variable time_left : nat -> Z.

Local Abbreviation reads := (reads_until_low (TIMER_THRESHOLD self) time_left).

Lemma reads_step (A : Type) (t t1 : nat) (o : Outcome A) :
  t <= t1 ->
  (forall k, t <= k < t1 -> (TIMER_THRESHOLD self <= time_left k)%Z) ->
  reads t1 o -> reads t o.
Proof.
  intros Hle Hok. destruct o as [a t'|t']; simpl.
  - intros (Hle' & Hok'). split; [lia|]. intros k Hk.
    destruct (Nat.lt_ge_cases k t1); [apply Hok|apply Hok']; lia.
  - intros (Hlt & Hlow & Hok'). repeat split; [lia|exact Hlow|].
    intros k Hk.
    destruct (Nat.lt_ge_cases k t1); [apply Hok|apply Hok']; lia.
Qed.

Lemma minimax_loop_reads (recurse : Move -> Search (Score * Move)) :
  (forall move t, t < calls_of (recurse move t) /\ reads t (recurse move t)) ->
  forall moves mp hs nm t,
    reads t (minimax_loop recurse mp moves hs nm t).
Proof.
  intros Hrec moves; induction moves as [|move rest IH];
    intros mp hs nm t; simpl.
  - split; [lia|]. intros k Hk; lia.
  - unfold bind. destruct (Hrec move t) as (Hlt & Hr).
    destruct (recurse move t) as [r t1|t1]; simpl in Hlt, Hr; [|exact Hr].
    destruct Hr as (Hle & Hok).
    destruct mp;
      match goal with
      | |- context [score_ltb ?x ?y] => destruct (score_ltb x y)
      end; (eapply reads_step; [exact Hle|exact Hok|apply IH]).
Qed.

Lemma alphabeta_loop_reads
    (recurse : Move -> Score -> Score -> Search (Score * Move)) :
  (forall move a b t,
      t < calls_of (recurse move a b t) /\ reads t (recurse move a b t)) ->
  forall moves mp hs nm alpha beta t,
    reads t (alphabeta_loop recurse mp moves hs nm alpha beta t).
Proof.
  intros Hrec moves; induction moves as [|move rest IH];
    intros mp hs nm alpha beta t; simpl.
  - split; [lia|]. intros k Hk; lia.
  - unfold bind. destruct (Hrec move alpha beta t) as (Hlt & Hr).
    destruct (recurse move alpha beta t) as [r t1|t1]; simpl in Hlt, Hr;
      [|exact Hr].
    destruct Hr as (Hle & Hok).
    destruct mp;
      match goal with
      | |- context [score_ltb ?x ?y] => destruct (score_ltb x y)
      end;
      match goal with
      | |- context [score_leb ?x ?y] => destruct (score_leb x y)
      end; simpl;
      solve [ split; [exact Hle|exact Hok]
            | eapply reads_step; [exact Hle|exact Hok|apply IH] ].
Qed.

Lemma check_then_reads (A : Type) (t : nat) (body : Search A) :
  reads (S t) (body (S t)) ->
  reads t (if (time_left t <? TIMER_THRESHOLD self)%Z
           then Timeout (S t) else body (S t)).
Proof.
  destruct (Z.ltb_spec (time_left t) (TIMER_THRESHOLD self)) as [Hlow|Hok].
  - intros _. simpl. rewrite Nat.sub_0_r. repeat split; [lia|exact Hlow|].
    intros k Hk; lia.
  - apply reads_step; [lia|]. intros k Hk.
    assert (k = t) as -> by lia. exact Hok.
Qed.

Lemma minimax_reads (depth : nat) :
  forall game mp t, reads t (minimax self time_left game depth mp t).
Proof.
  induction depth as [|d IH]; intros game mp t; rewrite minimax_eq.
  - apply (check_then_reads _ t (fun t1 => Returned _ t1)).
    simpl. split; [lia|]. intros k Hk; lia.
  - apply (check_then_reads _ t
             (minimax_loop _ mp (get_legal_moves game None) _ no_move)).
    apply minimax_loop_reads. intros move t1. split; [apply minimax_calls|].
    apply IH.
Qed.

Lemma alphabeta_reads (depth : nat) :
  forall game alpha beta mp t,
    reads t (alphabeta self time_left game depth alpha beta mp t).
Proof.
  induction depth as [|d IH]; intros game alpha beta mp t;
    rewrite alphabeta_eq.
  - apply (check_then_reads _ t (fun t1 => Returned _ t1)).
    simpl. split; [lia|]. intros k Hk; lia.
  - apply (check_then_reads _ t
             (alphabeta_loop _ mp (get_legal_moves game None) _ no_move
                alpha beta)).
    apply alphabeta_loop_reads. intros move a b t1.
    split; [apply alphabeta_calls|]. apply IH.
Qed.

Lemma search_reads (game : Board) (depth t : nat) :
  reads t (search self time_left game depth t).
Proof.
  unfold search. destruct (String.eqb _ _);
    [apply alphabeta_reads|apply minimax_reads].
Qed.

(** X1.  A call of [minimax] or of [alphabeta] reads the probe one value
    after the other and stops at the first value strictly below the margin:
    when it returns a result, no value read during the whole search (its
    own and those of all nested calls) was below the margin; when it
    raises [Timeout], the last value read was below the margin and none
    before it was.  No nested [Timeout] is swallowed. *)
Theorem searches_stop_at_first_low_reading (game : Board) (depth : nat)
    (alpha beta : Score) (maximizing_player : bool) (t : nat) :
  reads_until_low (TIMER_THRESHOLD self) time_left t
    (minimax self time_left game depth maximizing_player t) /\
  reads_until_low (TIMER_THRESHOLD self) time_left t
    (alphabeta self time_left game depth alpha beta maximizing_player t).
Proof. split; [apply minimax_reads|apply alphabeta_reads]. Qed.

(** The same for the loop of [get_move]. *)
Lemma deepen_reads (game : Board) (depths : list nat) :
  forall next_move t,
    let r := deepen self time_left game depths next_move t in
    t <= probes r /\
    (ending r = TimedOut ->
     t < probes r /\
     (time_left (probes r - 1) < TIMER_THRESHOLD self)%Z /\
     forall k, t <= k < probes r - 1 ->
       (TIMER_THRESHOLD self <= time_left k)%Z) /\
    (ending r <> TimedOut ->
     forall k, t <= k < probes r ->
       (TIMER_THRESHOLD self <= time_left k)%Z).
Proof.
  induction depths as [|depth rest IH]; intros nm t; cbv zeta.
  - simpl. split; [lia|split; [discriminate|intros _ k Hk; lia]].
  - rewrite deepen_cons. pose proof (search_reads game depth t) as Hr.
    destruct (search self time_left game depth t) as [[sc mv] t1|t1];
      simpl in Hr.
    + destruct Hr as (Hle & Hok). destruct (score_eqb sc PosInf).
      * simpl. split; [exact Hle|split; [discriminate|intros _; exact Hok]].
      * specialize (IH (if negb (score_eqb sc NegInf) then mv else nm) t1).
        cbv zeta in IH. destruct IH as (Hle' & Hto & Hnto). simpl.
        split; [lia|]. split.
        -- intros E. destruct (Hto E) as (Hlt & Hlow & Hok').
           repeat split; [lia|exact Hlow|]. intros k Hk.
           destruct (Nat.lt_ge_cases k t1); [apply Hok|apply Hok']; lia.
        -- intros E k Hk.
           destruct (Nat.lt_ge_cases k t1); [apply Hok|apply Hnto]; auto; lia.
    + destruct Hr as (Hlt & Hlow & Hok). simpl.
      split; [lia|split; [intros _; auto|]].
      intros E; contradiction E; reflexivity.
Qed.

(** X2.  [get_move] stops at the first probe value strictly below the
    margin.  When it ends on a [Timeout], the last value it read was below
    the margin and no earlier one was; when it ends otherwise, no value it
    read was below the margin. *)
Theorem get_move_stops_at_first_low_reading (game : Board)
    (legal_moves : list Move) :
  let r := get_move_run self time_left game legal_moves in
  (ending r = TimedOut ->
   0 < probes r /\
   (time_left (probes r - 1) < TIMER_THRESHOLD self)%Z /\
   forall k, k < probes r - 1 -> (TIMER_THRESHOLD self <= time_left k)%Z) /\
  (ending r <> TimedOut ->
   forall k, k < probes r -> (TIMER_THRESHOLD self <= time_left k)%Z).
Proof.
  cbv zeta. unfold get_move_run. destruct legal_moves as [|first more].
  - simpl. split; [discriminate|]. intros _ k Hk; lia.
  - pose proof (deepen_reads game (iteration_candidate self game) first 0)
      as Hr. cbv zeta in Hr. destruct Hr as (_ & Hto & Hnto). split.
    + intros E. destruct (Hto E) as (Hlt & Hlow & Hok).
      repeat split; auto. intros k Hk. apply Hok. lia.
    + intros E k Hk. apply Hnto; auto. lia.
Qed.

End ProbeReadings.

Section EnoughTimeFacts.

Context {Board Player : Type} `{BoardOps Board Player}.
Variable self : CustomPlayer Board Player.
Variable time_left : nat -> Z.
Hypothesis enough_time : forall k, (TIMER_THRESHOLD self <= time_left k)%Z.

Lemma loops_calls_le
    (ra : Move -> Score -> Score -> Search (Score * Move))
    (rm : Move -> Search (Score * Move)) :
  (forall move a b t, exists r t', ra move a b t = Returned r t') ->
  (forall move t, exists r t', rm move t = Returned r t') ->
  (forall move t, t < calls_of (rm move t)) ->
  (forall move a b ta tm, ta <= tm ->
     calls_of (ra move a b ta) <= calls_of (rm move tm)) ->
  forall moves mp hsa nma alpha beta hsm nmm ta tm, ta <= tm ->
    calls_of (alphabeta_loop ra mp moves hsa nma alpha beta ta)
    <= calls_of (minimax_loop rm mp moves hsm nmm tm).
Proof.
  intros Hra Hrm Hmono Hle moves; induction moves as [|move rest IH];
    intros mp hsa nma alpha beta hsm nmm ta tm Ht; simpl; auto.
  unfold bind. specialize (Hle move alpha beta ta tm Ht).
  destruct (Hra move alpha beta ta) as (r1 & ta1 & Ea).
  destruct (Hrm move tm) as (r2 & tm1 & Em).
  rewrite Ea, Em in *. simpl in Hle.
  assert (Hrest : forall h1 n1 a1 b1 h2 n2,
             calls_of (alphabeta_loop ra mp rest h1 n1 a1 b1 ta1)
             <= calls_of (minimax_loop rm mp rest h2 n2 tm1))
    by (intros; apply IH; exact Hle).
  assert (Hcut : forall h2 n2,
             ta1 <= calls_of (minimax_loop rm mp rest h2 n2 tm1)).
  { intros h2 n2.
    pose proof (minimax_loop_calls rm Hmono rest mp h2 n2 tm1). lia. }
  destruct mp;
    repeat match goal with
      | |- context [score_ltb ?x ?y] => destruct (score_ltb x y)
      end;
    match goal with
    | |- context [score_leb ?x ?y] => destruct (score_leb x y)
    end; simpl; solve [apply Hcut | apply Hrest].
Qed.

Lemma alphabeta_calls_le (depth : nat) :
  forall game alpha beta mp ta tm, ta <= tm ->
    calls_of (alphabeta self time_left game depth alpha beta mp ta)
    <= calls_of (minimax self time_left game depth mp tm).
Proof.
  induction depth as [|d IH]; intros game alpha beta mp ta tm Ht;
    rewrite minimax_eq, alphabeta_eq, !(probe_passes self time_left enough_time).
  - simpl; lia.
  - apply loops_calls_le; try lia.
    + intros move a b t.
      destruct (alphabeta_completes self time_left enough_time d
                  (forecast_move game move) a b (negb mp) t) as (t' & E).
      eauto.
    + intros move t.
      destruct (minimax_completes self time_left enough_time d
                  (forecast_move game move) (negb mp) t) as (t' & E).
      eauto.
    + intros move t. apply minimax_calls.
    + intros move a b ta1 tm1 Ht1. apply IH, Ht1.
Qed.

(** X3.  Pruning only removes work: when the probe never reports less than
    the margin, [alphabeta], with any bounds, returns after reading the
    probe at most as often as [minimax] on the same position, depth and
    level.  Every call reads the probe once, so [alphabeta] visits at most
    as many nodes of the game tree as [minimax]. *)
Theorem alphabeta_visits_no_more_than_minimax (game : Board) (depth : nat)
    (alpha beta : Score) (maximizing_player : bool) (t : nat) :
  exists rm tm ra ta,
    minimax self time_left game depth maximizing_player t = Returned rm tm /\
    alphabeta self time_left game depth alpha beta maximizing_player t
    = Returned ra ta /\
    ta <= tm.
Proof.
  destruct (minimax_completes self time_left enough_time depth game
              maximizing_player t) as (tm & Em).
  destruct (alphabeta_completes self time_left enough_time depth game
              alpha beta maximizing_player t) as (ta & Ea).
  pose proof (alphabeta_calls_le depth game alpha beta maximizing_player
                t t (le_n t)) as Hle.
  rewrite Em, Ea in Hle. simpl in Hle. eauto 10.
Qed.

(** X4.  [alphabeta] called with bounds [alpha < beta] returns the score of
    [minimax] when that score lies strictly between the bounds; when the
    score of [minimax] is at most [alpha] it returns a score at most
    [alpha], and when it is at least [beta] a score at least [beta]. *)
Theorem alphabeta_respects_window (game : Board) (depth : nat)
    (alpha beta : Score) (maximizing_player : bool) (t : nat) :
  score_ltb alpha beta = true ->
  exists rm tm ra ta,
    minimax self time_left game depth maximizing_player t = Returned rm tm /\
    alphabeta self time_left game depth alpha beta maximizing_player t
    = Returned ra ta /\
    (score_leb (fst rm) alpha = true -> score_leb (fst ra) alpha = true) /\
    (score_leb beta (fst rm) = true -> score_leb beta (fst ra) = true) /\
    (score_ltb alpha (fst rm) = true -> score_ltb (fst rm) beta = true ->
     fst ra = fst rm).
Proof.
  intros Hab.
  destruct (minimax_completes self time_left enough_time depth game
              maximizing_player t) as (tm & Em).
  destruct (alphabeta_completes self time_left enough_time depth game
              alpha beta maximizing_player t) as (ta & Ea).
  exists (minimax_value self game depth maximizing_player), tm,
    (alphabeta_value self game depth alpha beta maximizing_player), ta.
  split; [exact Em|]. split; [exact Ea|].
  apply (alphabeta_value_within self depth game maximizing_player alpha beta
           Hab).
Qed.

End EnoughTimeFacts.

Section FirstBest.

Variable value : Move -> Score.

Lemma minimax_loop_value_max_first (moves : list Move) :
  forall M nm,
    let r := minimax_loop_value value true moves M nm in
    (forall mv, In mv moves -> sle (value mv) (fst r)) /\
    ((r = (M, nm) /\ forall mv, In mv moves -> sle (value mv) M) \/
     (slt M (fst r) /\
      exists pre post,
        moves = pre ++ snd r :: post /\ value (snd r) = fst r /\
        forall mv, In mv pre -> slt (value mv) (fst r))).
Proof.
  induction moves as [|x rest IH]; intros M nm; cbv zeta; simpl.
  - split; [intros mv []|]. left; split; [reflexivity|intros mv []].
  - destruct (score_ltb_spec M (value x)) as [Lt|Ge].
    + specialize (IH (value x) x). cbv zeta in IH.
      destruct IH as (Hall & [(E & Hle) | (Hlt & pre & post & Hm & Hv & Hpre)]).
      * rewrite E in *. simpl in *. split.
        -- intros mv [<-|Hin]; [ScoreOrderTac.order|auto].
        -- right. split; [exact Lt|]. exists [], rest. simpl.
           repeat split. intros mv [].
      * split.
        -- intros mv [<-|Hin]; [ScoreOrderTac.order|auto].
        -- right. split; [ScoreOrderTac.order|].
           exists (x :: pre), post. rewrite Hm at 1. repeat split; auto.
           intros mv [<-|Hin]; auto.
    + specialize (IH M nm). cbv zeta in IH.
      destruct IH as (Hall & [(E & Hle) | (Hlt & pre & post & Hm & Hv & Hpre)]).
      * rewrite E in *. simpl in *. split.
        -- intros mv [<-|Hin]; auto.
        -- left. split; [reflexivity|]. intros mv [<-|Hin]; auto.
      * split.
        -- intros mv [<-|Hin]; [ScoreOrderTac.order|auto].
        -- right. split; [exact Hlt|].
           exists (x :: pre), post. rewrite Hm at 1. repeat split; auto.
           intros mv [<-|Hin]; [ScoreOrderTac.order|auto].
Qed.

Lemma minimax_loop_value_min_first (moves : list Move) :
  forall M nm,
    let r := minimax_loop_value value false moves M nm in
    (forall mv, In mv moves -> sle (fst r) (value mv)) /\
    ((r = (M, nm) /\ forall mv, In mv moves -> sle M (value mv)) \/
     (slt (fst r) M /\
      exists pre post,
        moves = pre ++ snd r :: post /\ value (snd r) = fst r /\
        forall mv, In mv pre -> slt (fst r) (value mv))).
Proof.
  induction moves as [|x rest IH]; intros M nm; cbv zeta; simpl.
  - split; [intros mv []|]. left; split; [reflexivity|intros mv []].
  - destruct (score_ltb_spec (value x) M) as [Lt|Ge].
    + specialize (IH (value x) x). cbv zeta in IH.
      destruct IH as (Hall & [(E & Hle) | (Hlt & pre & post & Hm & Hv & Hpre)]).
      * rewrite E in *. simpl in *. split.
        -- intros mv [<-|Hin]; [ScoreOrderTac.order|auto].
        -- right. split; [exact Lt|]. exists [], rest. simpl.
           repeat split. intros mv [].
      * split.
        -- intros mv [<-|Hin]; [ScoreOrderTac.order|auto].
        -- right. split; [ScoreOrderTac.order|].
           exists (x :: pre), post. rewrite Hm at 1. repeat split; auto.
           intros mv [<-|Hin]; auto.
    + specialize (IH M nm). cbv zeta in IH.
      destruct IH as (Hall & [(E & Hle) | (Hlt & pre & post & Hm & Hv & Hpre)]).
      * rewrite E in *. simpl in *. split.
        -- intros mv [<-|Hin]; auto.
        -- left. split; [reflexivity|]. intros mv [<-|Hin]; auto.
      * split.
        -- intros mv [<-|Hin]; [ScoreOrderTac.order|auto].
        -- right. split; [exact Hlt|].
           exists (x :: pre), post. rewrite Hm at 1. repeat split; auto.
           intros mv [<-|Hin]; [ScoreOrderTac.order|auto].
Qed.

End FirstBest.

Section MinimaxChoice.

Context {Board Player : Type} `{BoardOps Board Player}.
Variable self : CustomPlayer Board Player.
Variable time_left : nat -> Z.
Hypothesis enough_time : forall k, (TIMER_THRESHOLD self <= time_left k)%Z.

(** X5.  On a maximizing level with depth at least 1, [minimax] returns the
    greatest of the scores that [minimax] gives, one level deeper, to the
    positions after each legal move, with the first move in the order of
    [get_legal_moves()] that reaches it.  When no move scores above [-inf]
    (in particular when there is no move) it returns [-inf] with
    [(-1, -1)]. *)
Theorem minimax_max_returns_first_best (game : Board) (depth : nat)
    (t : nat) :
  let child := fun mv =>
    fst (minimax_value self (forecast_move game mv) depth false) in
  (forall mv t0, exists m0 t1,
     minimax self time_left (forecast_move game mv) depth false t0
     = Returned (child mv, m0) t1) /\
  exists s m t',
    minimax self time_left game (S depth) true t = Returned (s, m) t' /\
    (forall mv, In mv (get_legal_moves game None) ->
       score_leb (child mv) s = true) /\
    ((s = NegInf /\ m = no_move) \/
     exists pre post,
       get_legal_moves game None = pre ++ m :: post /\
       child m = s /\
       forall mv, In mv pre -> score_ltb (child mv) s = true).
Proof.
  cbv zeta. split.
  { intros mv t0.
    destruct (minimax_completes self time_left enough_time depth
                (forecast_move game mv) false t0) as (t1 & E0).
    rewrite E0. destruct (minimax_value _ _ _ _) as [s0 m0]. eauto. }
  destruct (minimax_completes self time_left enough_time (S depth) game
              true t) as (t' & E).
  pose proof (minimax_loop_value_max_first
                (fun mv => fst (minimax_value self (forecast_move game mv)
                                  depth false))
                (get_legal_moves game None) NegInf no_move) as Hspec.
  cbv zeta in Hspec. simpl in E.
  destruct (minimax_loop_value _ true (get_legal_moves game None)
              NegInf no_move) as [s m] eqn:Er.
  simpl in Hspec. destruct Hspec as (Hall & Hcases).
  exists s, m, t'. split; [exact E|]. split.
  - intros mv Hin. apply sle_true, Hall, Hin.
  - destruct Hcases as [(Eq & _) | (_ & pre & post & Hm & Hv & Hpre)].
    + left. injection Eq as -> ->. auto.
    + right. exists pre, post. repeat split; auto.
      intros mv Hin. apply slt_true, Hpre, Hin.
Qed.

(** X6.  On a minimizing level with depth at least 1, [minimax] returns the
    least of the scores of the positions after each legal move, with the
    first move that reaches it; when no move scores below [+inf] it returns
    [+inf] with [(-1, -1)]. *)
Theorem minimax_min_returns_first_best (game : Board) (depth : nat)
    (t : nat) :
  let child := fun mv =>
    fst (minimax_value self (forecast_move game mv) depth true) in
  (forall mv t0, exists m0 t1,
     minimax self time_left (forecast_move game mv) depth true t0
     = Returned (child mv, m0) t1) /\
  exists s m t',
    minimax self time_left game (S depth) false t = Returned (s, m) t' /\
    (forall mv, In mv (get_legal_moves game None) ->
       score_leb s (child mv) = true) /\
    ((s = PosInf /\ m = no_move) \/
     exists pre post,
       get_legal_moves game None = pre ++ m :: post /\
       child m = s /\
       forall mv, In mv pre -> score_ltb s (child mv) = true).
Proof.
  cbv zeta. split.
  { intros mv t0.
    destruct (minimax_completes self time_left enough_time depth
                (forecast_move game mv) true t0) as (t1 & E0).
    rewrite E0. destruct (minimax_value _ _ _ _) as [s0 m0]. eauto. }
  destruct (minimax_completes self time_left enough_time (S depth) game
              false t) as (t' & E).
  pose proof (minimax_loop_value_min_first
                (fun mv => fst (minimax_value self (forecast_move game mv)
                                  depth true))
                (get_legal_moves game None) PosInf no_move) as Hspec.
  cbv zeta in Hspec. simpl in E.
  destruct (minimax_loop_value _ false (get_legal_moves game None)
              PosInf no_move) as [s m] eqn:Er.
  simpl in Hspec. destruct Hspec as (Hall & Hcases).
  exists s, m, t'. split; [exact E|]. split.
  - intros mv Hin. apply sle_true, Hall, Hin.
  - destruct Hcases as [(Eq & _) | (_ & pre & post & Hm & Hv & Hpre)].
    + left. injection Eq as -> ->. auto.
    + right. exists pre, post. repeat split; auto.
      intros mv Hin. apply slt_true, Hpre, Hin.
Qed.

End MinimaxChoice.

Section DriverFacts.

Context {Board Player : Type} `{BoardOps Board Player}.
Variable self : CustomPlayer Board Player.
Variable time_left : nat -> Z.


Lemma deepen_chosen_finite (game : Board) (depths : list nat) :
  forall next_move t,
    let m := chosen (deepen self time_left game depths next_move t) in
    m = next_move \/
    exists depth t0 x t1,
      In depth depths /\
      search self time_left game depth t0 = Returned (Fin x, m) t1.
Proof.
  induction depths as [|depth rest IH]; intros nm t; cbv zeta.
  - simpl; auto.
  - rewrite deepen_cons.
    destruct (search self time_left game depth t) as [[sc mv] t'|t'] eqn:E;
      [|simpl; auto].
    destruct (score_eqb sc PosInf) eqn:Ep; [simpl; auto|]. simpl.
    specialize (IH (if negb (score_eqb sc NegInf) then mv else nm) t').
    cbv zeta in IH. destruct IH as [-> | (d & t0 & x & t1 & Hin & Hs)].
    + destruct (score_eqb sc NegInf) eqn:En; simpl; auto.
      right. exists depth, t. destruct sc as [|x|]; try discriminate.
      exists x, t'. split; [left; reflexivity|exact E].
    + right. exists d, t0, x, t1. split; [right; exact Hin|exact Hs].
Qed.

(** X8.  The move [get_move] returns is the first legal move or the move of
    a search, at one of the candidate depths, that returned a finite score.
    A move found with the score [+inf] or [-inf] is never returned for that
    reason. *)
Theorem get_move_first_or_finite_search (game : Board) (first : Move)
    (more : list Move) :
  get_move self time_left game (first :: more) = first \/
  exists depth t0 x t1,
    In depth (iteration_candidate self game) /\
    search self time_left game depth t0
    = Returned (Fin x, get_move self time_left game (first :: more)) t1.
Proof.
  unfold get_move, get_move_run.
  apply (deepen_chosen_finite game (iteration_candidate self game) first 0).
Qed.

(** X9.  When the first value of the probe is already below the margin,
    [get_move] returns the first legal move, having read the probe at most
    once. *)
Theorem low_first_reading_returns_first_move (game : Board) (first : Move)
    (more : list Move) :
  (time_left 0 < TIMER_THRESHOLD self)%Z ->
  get_move self time_left game (first :: more) = first /\
  probes (get_move_run self time_left game (first :: more)) <= 1.
Proof.
  intros Hlow. unfold get_move, get_move_run.
  destruct (iteration_candidate self game) as [|depth rest]; [simpl; auto|].
  rewrite deepen_cons. apply Z.ltb_lt in Hlow.
  unfold search. destruct (String.eqb _ _);
    [rewrite alphabeta_eq|rewrite minimax_eq]; rewrite Hlow; simpl; auto.
Qed.

(** X10.  With fixed-depth search and [search_depth = 0], [get_move]
    evaluates the position once and, when the value is finite, returns
    [(-1, -1)] although legal moves exist. *)
Theorem depth_zero_returns_no_move (game : Board) (first : Move)
    (more : list Move) (x : Z) :
  iterative self = false ->
  search_depth self = 0 ->
  (TIMER_THRESHOLD self <= time_left 0)%Z ->
  score self game (active_player game) = Fin x ->
  get_move_run self time_left game (first :: more)
  = {| chosen := no_move; searched := [0];
       ending := Exhausted; probes := 1 |}.
Proof.
  intros Hiter Hdepth Htime Hscore.
  unfold get_move_run, iteration_candidate. rewrite Hiter, Hdepth.
  rewrite deepen_cons. apply Z.ltb_ge in Htime.
  unfold search. destruct (String.eqb _ _);
    [rewrite alphabeta_eq|rewrite minimax_eq]; rewrite Htime, Hscore;
    reflexivity.
Qed.

(** X11.  With iterative deepening on a board where
    [move_count + width * height] is at most 2, the list of depths is empty:
    [get_move] returns the first legal move without any search and without
    reading the probe. *)
Theorem tiny_board_is_not_searched (game : Board) (first : Move)
    (more : list Move) :
  iterative self = true ->
  move_count game + width game * height game <= 2 ->
  get_move_run self time_left game (first :: more)
  = {| chosen := first; searched := [];
       ending := Exhausted; probes := 0 |}.
Proof.
  intros Hiter Hsmall. unfold get_move_run, iteration_candidate, py_range.
  rewrite Hiter.
  replace (move_count game + width game * height game - 1 - 1) with 0 by lia.
  reflexivity.
Qed.

End DriverFacts.

Section MethodChoice.

Context {Board Player : Type} `{BoardOps Board Player}.

Lemma minimax_loop_value_ext (v1 v2 : Move -> Score) :
  (forall mv, v1 mv = v2 mv) ->
  forall moves mp hs nm,
    minimax_loop_value v1 mp moves hs nm = minimax_loop_value v2 mp moves hs nm.
Proof.
  intros Hv moves; induction moves as [|x rest IH]; intros mp hs nm; simpl;
    auto.
  rewrite Hv. destruct mp;
    match goal with
    | |- context [score_ltb ?a ?b] => destruct (score_ltb a b)
    end; apply IH.
Qed.

Lemma minimax_value_same_score (self self' : CustomPlayer Board Player) :
  (forall game player, score self game player = score self' game player) ->
  forall depth game mp,
    minimax_value self game depth mp = minimax_value self' game depth mp.
Proof.
  intros Hs depth; induction depth as [|d IH]; intros game mp; simpl.
  - now rewrite Hs.
  - apply minimax_loop_value_ext. intros mv. now rewrite IH.
Qed.

Lemma search_completes (self : CustomPlayer Board Player)
    (time_left : nat -> Z) :
  (forall k, (TIMER_THRESHOLD self <= time_left k)%Z) ->
  forall game depth t, exists t',
    search self time_left game depth t
    = Returned (minimax_value self game depth true) t'.
Proof.
  intros Htime game depth t. unfold search. destruct (String.eqb _ _).
  - destruct (alphabeta_completes self time_left Htime depth game
                NegInf PosInf true t) as (t' & E).
    exists t'. rewrite E. now rewrite alphabeta_value_root.
  - apply minimax_completes, Htime.
Qed.

Lemma deepen_same_results (self self' : CustomPlayer Board Player)
    (time_left : nat -> Z) (game : Board) :
  (forall depth t t', exists r t1 t1',
      search self time_left game depth t = Returned r t1 /\
      search self' time_left game depth t' = Returned r t1') ->
  forall depths next_move t t',
    let r := deepen self time_left game depths next_move t in
    let r' := deepen self' time_left game depths next_move t' in
    chosen r = chosen r' /\ searched r = searched r' /\ ending r = ending r'.
Proof.
  intros Hsame depths; induction depths as [|depth rest IH];
    intros nm t t'; cbv zeta.
  - simpl; auto.
  - rewrite !deepen_cons.
    destruct (Hsame depth t t') as ([sc mv] & t1 & t1' & -> & ->).
    destruct (score_eqb sc PosInf); [simpl; auto|].
    specialize (IH (if negb (score_eqb sc NegInf) then mv else nm) t1 t1').
    cbv zeta in IH. destruct IH as (Hc & Hs & He). simpl.
    rewrite Hc, Hs, He. auto.
Qed.

(** X12.  When the probe never reports less than the margin, the choice of
    the method does not change what [get_move] does: two agents that differ
    at most in [method] search the same depths, end the loop the same way
    and return the same move. *)
Theorem method_does_not_change_the_move
    (self self' : CustomPlayer Board Player) (time_left : nat -> Z)
    (game : Board) (legal_moves : list Move) :
  (forall game player, score self game player = score self' game player) ->
  search_depth self = search_depth self' ->
  iterative self = iterative self' ->
  TIMER_THRESHOLD self = TIMER_THRESHOLD self' ->
  (forall k, (TIMER_THRESHOLD self <= time_left k)%Z) ->
  get_move self time_left game legal_moves
  = get_move self' time_left game legal_moves /\
  searched (get_move_run self time_left game legal_moves)
  = searched (get_move_run self' time_left game legal_moves) /\
  ending (get_move_run self time_left game legal_moves)
  = ending (get_move_run self' time_left game legal_moves).
Proof.
  intros Hscore Hdepth Hiter Hthr Htime.
  unfold get_move, get_move_run. destruct legal_moves as [|first more];
    [simpl; auto|].
  assert (Hcand : iteration_candidate self game
                  = iteration_candidate self' game).
  { unfold iteration_candidate. now rewrite Hiter, Hdepth. }
  rewrite Hcand. apply (deepen_same_results self self' time_left game).
  intros depth t t'.
  destruct (search_completes self time_left Htime game depth t) as (t1 & E1).
  assert (Htime' : forall k, (TIMER_THRESHOLD self' <= time_left k)%Z)
    by (intros k; rewrite <- Hthr; apply Htime).
  destruct (search_completes self' time_left Htime' game depth t')
    as (t1' & E1').
  exists (minimax_value self game depth true), t1, t1'.
  split; [exact E1|]. rewrite E1'.
  now rewrite (minimax_value_same_score self self' Hscore).
Qed.

(** X13.  On a position where neither player is reported a loser or a
    winner, [custom_score] is zero-sum: the score of the opponent is the
    score of the player with the opposite sign, provided the opponent of
    the opponent is the player. *)
Theorem custom_score_zero_sum (game : Board) (player : Player) (x : Z) :
  get_opponent game (get_opponent game player) = player ->
  is_loser game player = false -> is_winner game player = false ->
  is_loser game (get_opponent game player) = false ->
  is_winner game (get_opponent game player) = false ->
  custom_score game player = Fin x ->
  custom_score game (get_opponent game player) = Fin (- x).
Proof.
  unfold custom_score. intros Hopp -> -> -> ->. rewrite Hopp.
  intros E; injection E as <-. f_equal. lia.
Qed.

End MethodChoice.

(** ** The further properties on the example positions *)

Lemma get_move_stops_at_first_low_reading_witness :
  let r := get_move_run (player_with 2 true "alphabeta" 10)
             (expiring 12 100) lost_root root_moves in
  (0 < probes r /\
   (expiring 12 100 (probes r - 1) < 10)%Z /\
   forall k, k < probes r - 1 -> (10 <= expiring 12 100 k)%Z) /\
  ending (get_move_run (player_with 2 true "alphabeta" 10) (steady 100)
            lost_root root_moves) <> TimedOut.
Proof.
  cbv zeta. split.
  - apply (proj1 (get_move_stops_at_first_low_reading
                    (player_with 2 true "alphabeta" 10) (expiring 12 100)
                    lost_root root_moves)).
    vm_compute. reflexivity.
  - vm_compute. discriminate.
Defined.

Lemma alphabeta_visits_no_more_than_minimax_witness :
  exists rm tm ra ta,
    minimax (player_with 3 true "alphabeta" 10) (steady 100)
      lost_root 3 true 0 = Returned rm tm /\
    alphabeta (player_with 3 true "alphabeta" 10) (steady 100)
      lost_root 3 (Fin 0) (Fin 1) true 0 = Returned ra ta /\
    ta <= tm.
Proof.
  apply (alphabeta_visits_no_more_than_minimax
           (player_with 3 true "alphabeta" 10) (steady 100)).
  intros k. unfold steady. simpl. lia.
Defined.

Lemma alphabeta_respects_window_witness :
  exists rm tm ra ta,
    minimax (player_with 3 true "alphabeta" 10) (steady 100)
      lost_root 3 true 0 = Returned rm tm /\
    alphabeta (player_with 3 true "alphabeta" 10) (steady 100)
      lost_root 3 (Fin (-1)) (Fin 1) true 0 = Returned ra ta /\
    (score_leb (fst rm) (Fin (-1)) = true ->
     score_leb (fst ra) (Fin (-1)) = true) /\
    (score_leb (Fin 1) (fst rm) = true ->
     score_leb (Fin 1) (fst ra) = true) /\
    (score_ltb (Fin (-1)) (fst rm) = true ->
     score_ltb (fst rm) (Fin 1) = true -> fst ra = fst rm).
Proof.
  apply (alphabeta_respects_window
           (player_with 3 true "alphabeta" 10) (steady 100)).
  - intros k. unfold steady. simpl. lia.
  - reflexivity.
Defined.

Lemma minimax_max_returns_first_best_witness :
  let child := fun mv =>
    fst (minimax_value (player_with 3 true "minimax" 10)
           (forecast_move lost_root mv) 1 false) in
  (forall mv t0, exists m0 t1,
     minimax (player_with 3 true "minimax" 10) (steady 100)
       (forecast_move lost_root mv) 1 false t0
     = Returned (child mv, m0) t1) /\
  exists s m t',
    minimax (player_with 3 true "minimax" 10) (steady 100)
      lost_root 2 true 0 = Returned (s, m) t' /\
    (forall mv, In mv (get_legal_moves lost_root None) ->
       score_leb (child mv) s = true) /\
    ((s = NegInf /\ m = no_move) \/
     exists pre post,
       get_legal_moves lost_root None = pre ++ m :: post /\
       child m = s /\
       forall mv, In mv pre -> score_ltb (child mv) s = true).
Proof.
  apply (minimax_max_returns_first_best
           (player_with 3 true "minimax" 10) (steady 100)).
  intros k. unfold steady. simpl. lia.
Defined.

Lemma minimax_min_returns_first_best_witness :
  let child := fun mv =>
    fst (minimax_value (player_with 3 true "minimax" 10)
           (forecast_move lost_a mv) 1 true) in
  (forall mv t0, exists m0 t1,
     minimax (player_with 3 true "minimax" 10) (steady 100)
       (forecast_move lost_a mv) 1 true t0
     = Returned (child mv, m0) t1) /\
  exists s m t',
    minimax (player_with 3 true "minimax" 10) (steady 100)
      lost_a 2 false 0 = Returned (s, m) t' /\
    (forall mv, In mv (get_legal_moves lost_a None) ->
       score_leb s (child mv) = true) /\
    ((s = PosInf /\ m = no_move) \/
     exists pre post,
       get_legal_moves lost_a None = pre ++ m :: post /\
       child m = s /\
       forall mv, In mv pre -> score_ltb s (child mv) = true).
Proof.
  apply (minimax_min_returns_first_best
           (player_with 3 true "minimax" 10) (steady 100)).
  intros k. unfold steady. simpl. lia.
Defined.


Lemma low_first_reading_returns_first_move_witness :
  get_move (player_with 3 true "alphabeta" 10) (steady 5) lost_root
    (mv 2 0 :: [mv 2 2]) = mv 2 0 /\
  probes (get_move_run (player_with 3 true "alphabeta" 10) (steady 5)
            lost_root (mv 2 0 :: [mv 2 2])) <= 1.
Proof.
  apply (low_first_reading_returns_first_move
           (player_with 3 true "alphabeta" 10) (steady 5) lost_root
           (mv 2 0) [mv 2 2]).
  unfold steady. simpl. lia.
Defined.

Lemma depth_zero_returns_no_move_witness :
  get_move_run (player_with 0 false "minimax" 10) (steady 100) lost_root
    (mv 2 0 :: [mv 2 2])
  = {| chosen := no_move; searched := [0];
       ending := Exhausted; probes := 1 |}.
Proof.
  apply (depth_zero_returns_no_move
           (player_with 0 false "minimax" 10) (steady 100) lost_root
           (mv 2 0) [mv 2 2] 1).
  - reflexivity.
  - reflexivity.
  - unfold steady. simpl. lia.
  - reflexivity.
Defined.

Lemma tiny_board_is_not_searched_witness :
  get_move_run (player_with 3 true "alphabeta" 10) (steady 100) tiny_root
    (mv 0 0 :: [mv 1 0])
  = {| chosen := mv 0 0; searched := [];
       ending := Exhausted; probes := 0 |}.
Proof.
  apply (tiny_board_is_not_searched
           (player_with 3 true "alphabeta" 10) (steady 100) tiny_root
           (mv 0 0) [mv 1 0]).
  - reflexivity.
  - simpl. lia.
Defined.

Lemma method_does_not_change_the_move_witness :
  get_move (player_with 3 true "alphabeta" 10) (steady 100)
    lost_root root_moves
  = get_move (player_with 3 true "minimax" 10) (steady 100)
      lost_root root_moves /\
  searched (get_move_run (player_with 3 true "alphabeta" 10) (steady 100)
              lost_root root_moves)
  = searched (get_move_run (player_with 3 true "minimax" 10) (steady 100)
                lost_root root_moves) /\
  ending (get_move_run (player_with 3 true "alphabeta" 10) (steady 100)
            lost_root root_moves)
  = ending (get_move_run (player_with 3 true "minimax" 10) (steady 100)
              lost_root root_moves).
Proof.
  apply (method_does_not_change_the_move
           (player_with 3 true "alphabeta" 10)
           (player_with 3 true "minimax" 10) (steady 100) lost_root
           root_moves).
  - reflexivity.
  - reflexivity.
  - reflexivity.
  - reflexivity.
  - intros k. unfold steady. simpl. lia.
Defined.

Lemma custom_score_zero_sum_witness :
  custom_score eval_example (get_opponent eval_example First) = Fin (- 2).
Proof.
  apply (custom_score_zero_sum eval_example First 2); reflexivity.
Defined.
